(** * cuNumeric: shape broadcasting, array facade and kernel bodies

    A shallow embedding of
      - [src/cunumeric/operators.cc]   (broadcast_shapes and the array facade),
      - [src/cunumeric/matrix/potrf.cc] (Cholesky kernel bodies, CPU variant),
      - [src/matrix/matvecmul_omp.cc]   (OpenMP matrix-vector kernels),
    together with the properties the specification states about them. *)

From Stdlib Require Import ZArith NArith String Ascii Bool Lia List.
From Stdlib Require Import DecimalString.
From Stdlib Require Import Permutation.
Import ListNotations.

Local Open Scope N_scope.

(** ** Build configuration

    The preprocessor symbols the sources test. *)
Record BuildConfig := mkBuild {
  DEBUG_CUNUMERIC   : bool;   (* #ifdef DEBUG_CUNUMERIC                *)
  NDEBUG            : bool;   (* disables the C [assert] macro          *)
  LEGATE_USE_OPENMP : bool    (* LEGATE_DEFINED(LEGATE_USE_OPENMP)      *)
}.

(** ** Control outcomes of a C++ call *)

(** The exception objects the sources throw.  [std_exception] is the bare
    [std::exception()]: it has no data member, hence no message of its own. *)
Inductive exn :=
| std_exception
| std_invalid_argument (what : string)
| TaskException (what : string).

(** The message stored in the exception object, when it stores one. *)
Definition exn_what (e : exn) : option string :=
  match e with
  | std_exception => None
  | std_invalid_argument w => Some w
  | TaskException w => Some w
  end.

(** A call returns, leaves by an exception that unwinds to the caller, or
    terminates the process ([abort], a failed [assert]). *)
Inductive outcome (A : Type) :=
| Returned (a : A)
| Thrown (e : exn)
| Aborted.
Arguments Returned {A} a.
Arguments Thrown {A} e.
Arguments Aborted {A}.

(** ** legate types (legate's type_info.h is not part of the sources) *)
Module legate.

(** Modelled from the spec: the closed set of element-type tags
    (boolean; signed/unsigned integers of 8/16/32/64 bits; floating point
    16/32/64 bit; complex 64/128 bit), followed by the non-primitive tags
    that [Type::Code::FIXED_ARRAY] starts. *)
Inductive Code :=
| BOOL | INT8 | INT16 | INT32 | INT64
| UINT8 | UINT16 | UINT32 | UINT64
| FLOAT16 | FLOAT32 | FLOAT64
| COMPLEX64 | COMPLEX128
| FIXED_ARRAY | STRUCT | STRING.

(** [static_cast<int32_t>(code)]. *)
Definition code_value (c : Code) : Z :=
  match c with
  | BOOL => 0 | INT8 => 1 | INT16 => 2 | INT32 => 3 | INT64 => 4
  | UINT8 => 5 | UINT16 => 6 | UINT32 => 7 | UINT64 => 8
  | FLOAT16 => 9 | FLOAT32 => 10 | FLOAT64 => 11
  | COMPLEX64 => 13 | COMPLEX128 => 14
  | FIXED_ARRAY => 15 | STRUCT => 16 | STRING => 17
  end%Z.

(** Fixed byte size per primitive tag; the non-primitive tags have none. *)
Definition size_of (c : Code) : option Z :=
  match c with
  | BOOL | INT8 | UINT8 => Some 1
  | INT16 | UINT16 | FLOAT16 => Some 2
  | INT32 | UINT32 | FLOAT32 => Some 4
  | INT64 | UINT64 | FLOAT64 | COMPLEX64 => Some 8
  | COMPLEX128 => Some 16
  | FIXED_ARRAY | STRUCT | STRING => None
  end%Z.

(** [legate::Type]: only its [code] is read by the sources. *)
Record Type_ := mkType { code : Code }.

Definition float64 : Type_ := mkType FLOAT64.
Definition float32 : Type_ := mkType FLOAT32.

(** [legate::Scalar]: a value tagged with its type.  The facade only ever
    builds [Scalar(VAL(0))], so the payload is kept as an integer. *)
Record Scalar := mkScalar { scalar_type : Type_; scalar_value : Z }.

End legate.

(** [a] is narrower than [b]: it occupies fewer bytes per element. *)
Definition narrower (a b : legate.Type_) : Prop :=
  match legate.size_of (legate.code a), legate.size_of (legate.code b) with
  | Some x, Some y => (x < y)%Z
  | _, _ => False
  end.

Module cunumeric.

(** ** Array handles *)

(** [NDArray] (declared in ndarray.h, not part of the sources): the facade
    reads its shape, its type and its rank. *)
Record NDArray := mkNDArray {
  shape : list N;            (* std::vector<size_t> *)
  type  : legate.Type_
}.

(** [NDArray::dim()], an [int32_t]: the number of extents. *)
Definition dim (a : NDArray) : Z := Z.of_nat (length (shape a)).

(** ** broadcast_shapes (operators.cc, lines 28-51) *)

(** The inner loop.  Both lists are in reverse-iterator order
    ([rbegin] first); the loop stops as soon as either is exhausted.
    [None] is the [throw]. *)
Fixpoint broadcast_walk (in_it out_it : list N) : option (list N) :=
  match in_it, out_it with
  | i :: in_it', o :: out_it' =>
      if 1 =? o then
        option_map (cons i) (broadcast_walk in_it' out_it')
      else if negb (i =? 1) && negb (o =? i) then
        None
      else
        option_map (cons o) (broadcast_walk in_it' out_it')
  | _, _ => Some out_it
  end.

(** One iteration of the outer loop: [result] updated in place by the
    walk over [shape]. *)
Definition broadcast_into (result : list N) (s : list N) : option (list N) :=
  option_map (@rev N) (broadcast_walk (rev s) (rev result)).

Fixpoint broadcast_loop (arrays : list NDArray) (result : list N)
  : outcome (list N) :=
  match arrays with
  | [] => Returned result
  | array :: rest =>
      match broadcast_into result (shape array) with
      | None => Thrown std_exception
      | Some result' => broadcast_loop rest result'
      end
  end.

(** [dim = max(dim, array.dim())] over all arrays, starting from 0. *)
Definition max_dim (arrays : list NDArray) : Z :=
  fold_left (fun d array => Z.max d (dim array)) arrays 0%Z.

Definition broadcast_shapes (cfg : BuildConfig) (arrays : list NDArray)
  : outcome (list N) :=
  if DEBUG_CUNUMERIC cfg && negb (NDEBUG cfg) &&
     match arrays with [] => true | _ => false end
  then Aborted                                  (* assert(!arrays.empty()) *)
  else
    let dim := max_dim arrays in
    let result := repeat 1 (Z.to_nat dim) in
    broadcast_loop arrays result.

(** ** The facade's effects

    The facade talks to the CuNumeric runtime and to the member operations
    of [NDArray] (runtime.cc and ndarray.cc, not part of the sources), and
    prints diagnostics.  Each such call is recorded as an event. *)

Inductive UnaryOpCode := ABSOLUTE | NEGATIVE.
Inductive UnaryRedCode := SUM.
Inductive BinaryOpCode := ADD | MULTIPLY.
Inductive RandGenCode := UNIFORM.

(** The member operation invoked on the output handle. *)
Inductive array_op :=
| op_unary_op (op_code : UnaryOpCode) (input : NDArray)
| op_unary_reduction (op_code : UnaryRedCode) (input : NDArray)
| op_binary_op (op_code : BinaryOpCode) (rhs1 rhs2 : NDArray)
| op_random (gen_code : RandGenCode)
| op_fill (value : legate.Scalar) (argval : bool)
| op_trilu (rhs : NDArray) (k : Z) (lower : bool)
| op_dot (rhs1 rhs2 : NDArray).

Inductive event :=
| ev_create_array (shape : list N) (ty : legate.Type_)
| ev_submit (out : NDArray) (op : array_op)
| ev_fprintf_stderr (format : string) (args : list N).

(** A facade computation: the events it performed, then how it ended. *)
Definition M (A : Type) : Type := (list event * outcome A)%type.

Definition ret {A} (a : A) : M A := ([], Returned a).

Definition bind {A B} (m : M A) (k : A -> M B) : M B :=
  match m with
  | (t, Returned a) => let (t', r) := k a in (t ++ t', r)
  | (t, Thrown e) => (t, Thrown e)
  | (t, Aborted) => (t, Aborted)
  end.

Notation "x <- m ;; k" := (bind m (fun x => k))
  (at level 61, m at next level, right associativity).
Notation "m ;;; k" := (bind m (fun _ => k))
  (at level 61, right associativity).

Definition throw {A} (e : exn) : M A := ([], Thrown e).
Definition lift {A} (o : outcome A) : M A := ([], o).
Definition emit (e : event) : M unit := ([e], Returned tt).

(** Modelled from the spec: [CuNumericRuntime::create_array] (runtime.cc is
    not part of the sources) constructs a new output handle of exactly the
    shape and element type it is given. *)
Definition create_array (shape : list N) (ty : legate.Type_) : M NDArray :=
  emit (ev_create_array shape ty) ;;; ret (mkNDArray shape ty).

(** Modelled from the spec: a member operation of [NDArray] (ndarray.cc is
    not part of the sources) submits the operation to the dispatch chain
    with [out] as its output handle. *)
Definition submit (out : NDArray) (op : array_op) : M unit :=
  emit (ev_submit out op).

Definition fprintf_stderr (format : string) (args : list N) : M unit :=
  emit (ev_fprintf_stderr format args).

(** Modelled from the spec: [LEGATE_ABORT] (a macro of legate, which is not
    part of the sources) terminates the process. *)
Definition LEGATE_ABORT {A} : M A := ([], Aborted).

(** ** The facade (operators.cc, lines 55-211) *)

Definition unary_op (op_code : UnaryOpCode) (input : NDArray) : M NDArray :=
  out <- create_array (shape input) (type input) ;;
  submit out (op_unary_op op_code input) ;;;
  ret out.

Definition unary_reduction (op_code : UnaryRedCode) (input : NDArray)
  : M NDArray :=
  out <- create_array [1] (type input) ;;
  submit out (op_unary_reduction op_code input) ;;;
  ret out.

Definition binary_op (cfg : BuildConfig) (op_code : BinaryOpCode)
    (rhs1 rhs2 : NDArray) (out : option NDArray) : M NDArray :=
  out <- match out with
         | Some o => ret o
         | None =>
             out_shape <- lift (broadcast_shapes cfg [rhs1; rhs2]) ;;
             create_array out_shape (type rhs1)
         end ;;
  submit out (op_binary_op op_code rhs1 rhs2) ;;;
  ret out.

Definition abs (input : NDArray) : M NDArray := unary_op ABSOLUTE input.

Definition add cfg (rhs1 rhs2 : NDArray) (out : option NDArray) : M NDArray :=
  binary_op cfg ADD rhs1 rhs2 out.

Definition multiply cfg (rhs1 rhs2 : NDArray) (out : option NDArray)
  : M NDArray :=
  binary_op cfg MULTIPLY rhs1 rhs2 out.

Definition negative (input : NDArray) : M NDArray := unary_op NEGATIVE input.

Definition random (shape : list N) : M NDArray :=
  out <- create_array shape legate.float64 ;;
  submit out (op_random UNIFORM) ;;;
  ret out.

(** [generate_zero_fn::operator()<CODE>]: [Scalar(VAL(0))], whose type is
    the primitive type of [CODE]. *)
Definition generate_zero_fn (CODE : legate.Code) : legate.Scalar :=
  legate.mkScalar (legate.mkType CODE) 0.

(** [static_cast<int32_t>(code) >= static_cast<int32_t>(FIXED_ARRAY)]. *)
Definition not_primitive (ty : legate.Type_) : bool :=
  (legate.code_value (legate.FIXED_ARRAY) <=? legate.code_value (legate.code ty))%Z.

(** Modelled from the spec: [legate::type_dispatch] invokes exactly the
    specialization compiled for a primitive tag; it has none for the other
    tags. *)
Definition type_dispatch {R} (c : legate.Code) (f : legate.Code -> R)
  : option R :=
  match legate.size_of c with
  | Some _ => Some (f c)
  | None => None
  end.

Definition full (shape : list N) (value : legate.Scalar) : M NDArray :=
  out <- create_array shape (legate.scalar_type value) ;;
  submit out (op_fill value false) ;;;
  ret out.

(** [type = None] is the null [std::unique_ptr]. *)
Definition zeros (shape : list N) (type : option legate.Type_) : M NDArray :=
  let type := match type with None => legate.float64 | Some t => t end in
  if not_primitive type then
    throw (std_invalid_argument "Type must be a primitive type")
  else
    match type_dispatch (legate.code type) generate_zero_fn with
    | Some zero => full shape zero
    | None => LEGATE_ABORT
    end.

Definition trilu (rhs : NDArray) (k : Z) (lower : bool) : M NDArray :=
  let dim := dim rhs in
  let shape := shape rhs in
  let out_shape := shape in
  if (dim =? 0)%Z then
    throw (std_invalid_argument "Dim of input array must be > 0")
  else
    let out_shape :=
      if (dim =? 1)%Z then out_shape ++ [nth 0 shape 0] else out_shape in
    out <- create_array out_shape (type rhs) ;;
    submit out (op_trilu rhs k lower) ;;;
    ret out.

Definition tril (rhs : NDArray) (k : Z) : M NDArray := trilu rhs k true.
Definition triu (rhs : NDArray) (k : Z) : M NDArray := trilu rhs k false.

(** The line feed that ends the second diagnostic of [dot]. *)
Definition LF : string := String "010"%char EmptyString.

(** [rhs1_shape[1]] and [rhs2_shape[0]] are read only once both ranks are
    known to be 2. *)
Definition dot (rhs1 rhs2 : NDArray) : M NDArray :=
  if negb (dim rhs1 =? 2)%Z || negb (dim rhs2 =? 2)%Z then
    fprintf_stderr "cunumeric::dot only supports matrices now" [] ;;;
    LEGATE_ABORT
  else
    let rhs1_shape := shape rhs1 in
    let rhs2_shape := shape rhs2 in
    if negb (nth 1 rhs1_shape 0 =? nth 0 rhs2_shape 0) then
      fprintf_stderr ("Incompatible matrices: (%zd, %zd) x (%zd, %zd)" ++ LF)%string
        [nth 0 rhs1_shape 0; nth 1 rhs1_shape 0;
         nth 0 rhs2_shape 0; nth 1 rhs2_shape 0] ;;;
      LEGATE_ABORT
    else
      let shape := [nth 0 rhs1_shape 0; nth 1 rhs2_shape 0] in
      out <- create_array shape (type rhs1) ;;
      submit out (op_dot rhs1 rhs2) ;;;
      ret out.

Definition sum (input : NDArray) : M NDArray := unary_reduction SUM input.

End cunumeric.

(** ** Cholesky factorization kernels (matrix/potrf.cc) *)
Module potrf.

(** What the external numeric library is seen to do: its thread count
    being set, and a LAPACK routine being entered under the thread count
    then in force. *)
Inductive blas_event :=
| ev_set_num_threads (n : Z)
| ev_lapack (routine : string) (threads : Z).

Record blas_state := mkBlas {
  num_threads : Z;
  trace : list blas_event
}.

Definition openblas_set_num_threads (n : Z) (st : blas_state) : blas_state :=
  mkBlas n (trace st ++ [ev_set_num_threads n]).

Definition enter_lapack (routine : string) (st : blas_state) : blas_state :=
  mkBlas (num_threads st) (trace st ++ [ev_lapack routine (num_threads st)]).

Section Kernels.

(** Element types of the four specializations. *)
Variables float double complex_float complex_double : Type.

(** The external routines [LAPACK_?potrf(&uplo, &n, array, &lda, &info)]:
    the buffer they leave behind and the status they write to [info]. *)
Variable LAPACK_spotrf : ascii -> Z -> list float -> Z -> list float * Z.
Variable LAPACK_dpotrf : ascii -> Z -> list double -> Z -> list double * Z.
Variable LAPACK_cpotrf :
  ascii -> Z -> list complex_float -> Z -> list complex_float * Z.
Variable LAPACK_zpotrf :
  ascii -> Z -> list complex_double -> Z -> list complex_double * Z.

(** A kernel body works in place: it leaves a buffer behind whether it
    returns or throws. *)
Definition kernel_result (V : Type) : Type :=
  (blas_state * list V * outcome unit)%type.

Definition PotrfImplBody_CPU_FLOAT32 (array : list float) (m n : Z)
    (st : blas_state) : kernel_result float :=
  let uplo := "L"%char in
  let st := enter_lapack "spotrf" st in
  let '(array, info) := LAPACK_spotrf uplo n array m in
  if negb (info =? 0)%Z then
    (st, array, Thrown (TaskException "Matrix is not positive definite"))
  else (st, array, Returned tt).

Definition PotrfImplBody_CPU_FLOAT64 (array : list double) (m n : Z)
    (st : blas_state) : kernel_result double :=
  let uplo := "L"%char in
  let st := enter_lapack "dpotrf" st in
  let '(array, info) := LAPACK_dpotrf uplo n array m in
  if negb (info =? 0)%Z then
    (st, array, Thrown (TaskException "Matrix is not positive definite"))
  else (st, array, Returned tt).

Definition PotrfImplBody_CPU_COMPLEX64 (array : list complex_float)
    (m n : Z) (st : blas_state) : kernel_result complex_float :=
  let uplo := "L"%char in
  let st := enter_lapack "cpotrf" st in
  let '(array, info) := LAPACK_cpotrf uplo n array m in
  if negb (info =? 0)%Z then
    (st, array, Thrown (TaskException "Matrix is not positive definite"))
  else (st, array, Returned tt).

Definition PotrfImplBody_CPU_COMPLEX128 (array : list complex_double)
    (m n : Z) (st : blas_state) : kernel_result complex_double :=
  let uplo := "L"%char in
  let st := enter_lapack "zpotrf" st in
  let '(array, info) := LAPACK_zpotrf uplo n array m in
  if negb (info =? 0)%Z then
    (st, array, Thrown (TaskException "Matrix is not positive definite"))
  else (st, array, Returned tt).

(** The square buffer a factorization task is handed, tagged with its
    element type: one of the four the kernel is specialized for. *)
Inductive Store :=
| store_FLOAT32 (array : list float) (m n : Z)
| store_FLOAT64 (array : list double) (m n : Z)
| store_COMPLEX64 (array : list complex_float) (m n : Z)
| store_COMPLEX128 (array : list complex_double) (m n : Z).

(** The status the external routine reports for a store. *)
Definition lapack_info (s : Store) : Z :=
  match s with
  | store_FLOAT32 a m n => snd (LAPACK_spotrf "L"%char n a m)
  | store_FLOAT64 a m n => snd (LAPACK_dpotrf "L"%char n a m)
  | store_COMPLEX64 a m n => snd (LAPACK_cpotrf "L"%char n a m)
  | store_COMPLEX128 a m n => snd (LAPACK_zpotrf "L"%char n a m)
  end.

(** The family [PotrfImplBody<VariantKind::CPU, CODE>]: the
    specialization for the element type of the store. *)
Definition PotrfImplBody_CPU (s : Store) (st : blas_state)
  : blas_state * Store * outcome unit :=
  match s with
  | store_FLOAT32 a m n =>
      let '(st, a, r) := PotrfImplBody_CPU_FLOAT32 a m n st in
      (st, store_FLOAT32 a m n, r)
  | store_FLOAT64 a m n =>
      let '(st, a, r) := PotrfImplBody_CPU_FLOAT64 a m n st in
      (st, store_FLOAT64 a m n, r)
  | store_COMPLEX64 a m n =>
      let '(st, a, r) := PotrfImplBody_CPU_COMPLEX64 a m n st in
      (st, store_COMPLEX64 a m n, r)
  | store_COMPLEX128 a m n =>
      let '(st, a, r) := PotrfImplBody_CPU_COMPLEX128 a m n st in
      (st, store_COMPLEX128 a m n, r)
  end.

(** Modelled from the spec: [potrf_template<VariantKind::CPU>]
    (matrix/potrf_template.inl is not part of the sources) hands the
    task's buffer to the kernel body specialized for its element type,
    which factors it in place. *)
Definition potrf_template_CPU (context : Store) (st : blas_state)
  : blas_state * Store * outcome unit :=
  PotrfImplBody_CPU context st.

(** [PotrfTask::cpu_variant] (potrf.cc, lines 79-85). *)
Definition cpu_variant (cfg : BuildConfig) (context : Store)
    (st : blas_state) : blas_state * Store * outcome unit :=
  let st :=
    if LEGATE_USE_OPENMP cfg then openblas_set_num_threads 1 st else st in
  potrf_template_CPU context st.

(** The store as the external routine leaves it. *)
Definition lapack_store (s : Store) : Store :=
  match s with
  | store_FLOAT32 a m n => store_FLOAT32 (fst (LAPACK_spotrf "L"%char n a m)) m n
  | store_FLOAT64 a m n => store_FLOAT64 (fst (LAPACK_dpotrf "L"%char n a m)) m n
  | store_COMPLEX64 a m n =>
      store_COMPLEX64 (fst (LAPACK_cpotrf "L"%char n a m)) m n
  | store_COMPLEX128 a m n =>
      store_COMPLEX128 (fst (LAPACK_zpotrf "L"%char n a m)) m n
  end.

End Kernels.

(** An event is a LAPACK call made with more than one thread. *)
Definition oversubscribed (e : blas_event) : Prop :=
  match e with
  | ev_lapack _ threads => (threads > 1)%Z
  | ev_set_num_threads _ => False
  end.

(** A reference [potrf] on 1-by-1 integer matrices, to run the kernels
    on: the factor of [x] is its square root when [x] is positive, and the
    status is 1 otherwise. *)
Definition ref_potrf (uplo : ascii) (n : Z) (a : list Z) (lda : Z)
  : list Z * Z :=
  match a with
  | [x] => if (0 <? x)%Z then ([Z.sqrt x], 0%Z) else (a, 1%Z)
  | _ => (a, (-3)%Z)
  end.

Definition ref_cpu_variant :=
  cpu_variant Z Z Z Z ref_potrf ref_potrf ref_potrf ref_potrf.

(** A reference [potrf] on 2-by-2 integer matrices stored column by column,
    lower triangle, as the unblocked LAPACK routine proceeds: a pivot that
    is not positive is stored where it was found and its index is the
    status; the cell above the diagonal is not referenced. *)
Definition ref_potrf_2x2 (uplo : ascii) (n : Z) (a : list Z) (lda : Z)
  : list Z * Z :=
  match a with
  | [a11; a21; a12; a22] =>
      if (a11 <=? 0)%Z then (a, 1%Z)
      else
        let l11 := Z.sqrt a11 in
        let l21 := (a21 / l11)%Z in
        let ajj := (a22 - l21 * l21)%Z in
        if (ajj <=? 0)%Z then ([l11; l21; a12; ajj], 2%Z)
        else ([l11; l21; a12; Z.sqrt ajj], 0%Z)
  | _ => (a, (-3)%Z)
  end.

End potrf.

(** ** OpenMP matrix-vector kernels (matrix/matvecmul_omp.cc) *)
Module legate_numpy.

Inductive CBLAS_ORDER := CblasRowMajor | CblasColMajor.
Inductive CBLAS_TRANSPOSE := CblasNoTrans | CblasTrans.

(** [size_t] arithmetic wraps at 2^64. *)
Definition size_max : N := 2 ^ 64.
Definition size_mul (a b : N) : N := (a * b) mod size_max.

(** The implicit conversion of a [size_t] argument to the [int] parameter
    of a CBLAS routine. *)
Definition int_of_size_t (x : N) : Z :=
  let r := (Z.of_N x mod 2 ^ 32)%Z in
  if (r <? 2 ^ 31)%Z then r else (r - 2 ^ 32)%Z.

(** [buf[idx] = v], which is defined only inside the buffer. *)
Definition store {T} (buf : list T) (idx : nat) (v : T) : option (list T) :=
  if (idx <? length buf)%nat
  then Some (firstn idx buf ++ v :: skipn (S idx) buf)
  else None.

(** The element-wise conversion loop of the three helpers of
    matrix/util.h: [out[dst + j] = inp[src + j]], converted by [conv],
    for [k] consecutive values of [j].  [None] is an access outside a
    buffer. *)
Fixpoint convert_loop {U T} (conv : U -> T) (k j dst src : nat)
    (out : list T) (inp : list U) : option (list T) :=
  match k with
  | O => Some out
  | S k' =>
      match nth_error inp (src + j) with
      | None => None
      | Some v =>
          match store out (dst + j) (conv v) with
          | None => None
          | Some out' => convert_loop conv k' (S j) dst src out' inp
          end
      end
  end.

Section Kernels.

Variables half float : Type.
Variable half_to_float : half -> float.   (* implicit __half -> float *)
Variable float_to_half : float -> half.   (* implicit float -> __half *)
Variable float_of_int : Z -> float.       (* the literals 1 and 0      *)

(** The content of a buffer cell that has not been written yet. *)
Variable indeterminate : float.

(** The external routine: the contents of [Y] when it returns. *)
Variable cblas_sgemv :
  CBLAS_ORDER -> CBLAS_TRANSPOSE -> Z -> Z -> float ->
  list float -> Z -> list float -> Z -> float -> list float -> Z ->
  list float.

(** *** Helpers of matrix/util.h (not part of the sources) *)

(** Modelled from the spec: [allocate_buffer(size)] yields a scratch
    buffer of [size] single-precision cells for the promoted
    representation. *)
Definition allocate_buffer (size : N) : list float :=
  repeat indeterminate (N.to_nat size).

(** Modelled from the spec: [half_vector_to_float(out, in, n)] promotes
    [n] contiguous operands: [out[idx] = in[idx]] for [idx] from 0 to
    [n - 1]. *)
Definition half_vector_to_float (out : list float) (inp : list half)
    (n : N) : option (list float) :=
  convert_loop half_to_float (N.to_nat n) 0 0 0 out inp.

(** Modelled from the spec: [half_matrix_to_float(out, in, m, n, pitch)]
    promotes an [m] by [n] row-major operand whose rows are [pitch]
    cells apart into a dense one: [out[i * n + j] = in[i * pitch + j]].
    [k] rows remain, the next one is row [i]. *)
Fixpoint half_matrix_to_float_loop (k i : nat) (n pitch : nat)
    (out : list float) (inp : list half) : option (list float) :=
  match k with
  | O => Some out
  | S k' =>
      match convert_loop half_to_float n 0 (i * n) (i * pitch) out inp with
      | None => None
      | Some out' => half_matrix_to_float_loop k' (S i) n pitch out' inp
      end
  end.

Definition half_matrix_to_float (out : list float) (inp : list half)
    (m n pitch : N) : option (list float) :=
  half_matrix_to_float_loop (N.to_nat m) 0 (N.to_nat n) (N.to_nat pitch)
    out inp.

(** Modelled from the spec: [float_vector_to_half(out, in, n)] narrows
    the result back: [out[idx] = in[idx]] for [idx] from 0 to [n - 1]. *)
Definition float_vector_to_half (out : list half) (inp : list float)
    (n : N) : option (list half) :=
  convert_loop float_to_half (N.to_nat n) 0 0 0 out inp.

(** *** MatVecMulImplBody<VariantKind::OMP, FLOAT_LT> (lines 29-44)

    The result is the contents of [lhs] when the kernel returns. *)
Definition MatVecMulImplBody_OMP_FLOAT (m n : N) (lhs rhs1 rhs2 : list float)
    (rhs_stride : N) (vec_on_lhs : bool) : list float :=
  if vec_on_lhs then
    cblas_sgemv CblasRowMajor CblasTrans (int_of_size_t m) (int_of_size_t n)
      (float_of_int 1) rhs2 (int_of_size_t rhs_stride) rhs1 1
      (float_of_int 0) lhs 1
  else
    cblas_sgemv CblasRowMajor CblasNoTrans (int_of_size_t m) (int_of_size_t n)
      (float_of_int 1) rhs1 (int_of_size_t rhs_stride) rhs2 1
      (float_of_int 0) lhs 1.

Definition obind {X Y} (o : option X) (k : X -> option Y) : option Y :=
  match o with Some x => k x | None => None end.

(** *** MatVecMulImplBody<VariantKind::OMP, HALF_LT> (lines 63-96),
    the call operator whose [lhs] is half precision.  [None] is an
    access outside a buffer. *)
Definition MatVecMulImplBody_OMP_HALF (m n : N) (lhs rhs1 rhs2 : list half)
    (rhs_stride : N) (vec_on_lhs : bool) : option (list half) :=
  if vec_on_lhs then
    let lhs_copy := allocate_buffer n in
    let rhs1_copy := allocate_buffer m in
    let rhs2_copy := allocate_buffer (size_mul m n) in
    obind (half_vector_to_float rhs1_copy rhs1 m) (fun rhs1_copy =>
    obind (half_matrix_to_float rhs2_copy rhs2 m n rhs_stride)
      (fun rhs2_copy =>
    let lhs_copy :=
      cblas_sgemv CblasRowMajor CblasTrans
        (int_of_size_t m) (int_of_size_t n) (float_of_int 1)
        rhs2_copy (int_of_size_t n) rhs1_copy 1 (float_of_int 0)
        lhs_copy 1 in
    float_vector_to_half lhs lhs_copy n))
  else
    let lhs_copy := allocate_buffer m in
    let rhs1_copy := allocate_buffer (size_mul m n) in
    let rhs2_copy := allocate_buffer n in
    obind (half_matrix_to_float rhs1_copy rhs1 m n rhs_stride)
      (fun rhs1_copy =>
    obind (half_vector_to_float rhs2_copy rhs2 n) (fun rhs2_copy =>
    let lhs_copy :=
      cblas_sgemv CblasRowMajor CblasNoTrans
        (int_of_size_t m) (int_of_size_t n) (float_of_int 1)
        rhs1_copy (int_of_size_t n) rhs2_copy 1 (float_of_int 0)
        lhs_copy 1 in
    float_vector_to_half lhs lhs_copy m)).

(** *** The same kernel, call operator whose [lhs] is single precision
    (lines 98-123). *)
Definition MatVecMulImplBody_OMP_HALF_float_lhs (m n : N)
    (lhs : list float) (rhs1 rhs2 : list half)
    (rhs_stride : N) (vec_on_lhs : bool) : option (list float) :=
  if vec_on_lhs then
    let rhs1_copy := allocate_buffer m in
    let rhs2_copy := allocate_buffer (size_mul m n) in
    obind (half_vector_to_float rhs1_copy rhs1 m) (fun rhs1_copy =>
    obind (half_matrix_to_float rhs2_copy rhs2 m n rhs_stride)
      (fun rhs2_copy =>
    Some (cblas_sgemv CblasRowMajor CblasTrans
            (int_of_size_t m) (int_of_size_t n) (float_of_int 1)
            rhs2_copy (int_of_size_t n) rhs1_copy 1 (float_of_int 0)
            lhs 1)))
  else
    let rhs1_copy := allocate_buffer (size_mul m n) in
    let rhs2_copy := allocate_buffer n in
    obind (half_matrix_to_float rhs1_copy rhs1 m n rhs_stride)
      (fun rhs1_copy =>
    obind (half_vector_to_float rhs2_copy rhs2 n) (fun rhs2_copy =>
    Some (cblas_sgemv CblasRowMajor CblasNoTrans
            (int_of_size_t m) (int_of_size_t n) (float_of_int 1)
            rhs1_copy (int_of_size_t n) rhs2_copy 1 (float_of_int 0)
            lhs 1))).

(** *** The promotion policy in the specification's words

    Promote the operands to single precision, execute the
    single-precision kernel on the promoted (dense) buffers, narrow the
    result back to half precision. *)

(** The first [n] cells of a half vector, widened. *)
Definition widen_vector (v : list half) (n : N) : list float :=
  map half_to_float (firstn (N.to_nat n) v).

(** Row [i] of an [m] by [n] matrix whose rows are [pitch] cells apart. *)
Definition matrix_row (a : list half) (n pitch : nat) (i : nat)
  : list half :=
  firstn n (skipn (i * pitch) a).

Definition widen_row (a : list half) (n pitch : nat) (i : nat)
  : list float :=
  map half_to_float (matrix_row a n pitch i).

(** The matrix widened entry by entry, rows laid out densely. *)
Definition widen_matrix (a : list half) (m n pitch : N) : list float :=
  flat_map (widen_row a (N.to_nat n) (N.to_nat pitch))
           (seq 0 (N.to_nat m)).

(** The first [n] cells of [lhs] replaced by the narrowed result. *)
Definition narrow_into (lhs : list half) (r : list float) (n : N)
  : list half :=
  map float_to_half (firstn (N.to_nat n) r) ++ skipn (N.to_nat n) lhs.

Definition promote_execute_narrow (m n : N) (lhs rhs1 rhs2 : list half)
    (rhs_stride : N) (vec_on_lhs : bool) : list half :=
  if vec_on_lhs then
    narrow_into lhs
      (MatVecMulImplBody_OMP_FLOAT m n (allocate_buffer n)
         (widen_vector rhs1 m) (widen_matrix rhs2 m n rhs_stride)
         n true) n
  else
    narrow_into lhs
      (MatVecMulImplBody_OMP_FLOAT m n (allocate_buffer m)
         (widen_matrix rhs1 m n rhs_stride) (widen_vector rhs2 n)
         n false) m.

(** The matrix operand of an invocation lies inside its buffer. *)
Definition matrix_in_bounds (m n pitch : N) (a : list half) : bool :=
  (m =? 0) || (n =? 0) ||
  ((m - 1) * pitch + n <=? N.of_nat (length a)).

(** The [m] by [n] matrix operand with the cells between its rows
    dropped. *)
Definition dense_matrix (a : list half) (m n pitch : N) : list half :=
  flat_map (matrix_row a (N.to_nat n) (N.to_nat pitch)) (seq 0 (N.to_nat m)).

End Kernels.

(** A reference [sgemv] over the integers, to run the kernels on. *)
Definition ref_dot (a : list Z) (base stride : nat) (x : list Z) (len : nat)
  : Z :=
  fold_left (fun acc k => (acc + nth (base + k * stride) a 0 * nth k x 0)%Z)
    (seq 0 len) 0%Z.

Definition ref_sgemv (order : CBLAS_ORDER) (trans : CBLAS_TRANSPOSE)
    (M N : Z) (alpha : Z) (a : list Z) (lda : Z) (x : list Z) (incX : Z)
    (beta : Z) (y : list Z) (incY : Z) : list Z :=
  let M := Z.to_nat M in
  let N := Z.to_nat N in
  let lda := Z.to_nat lda in
  let entry i :=
    match trans with
    | CblasNoTrans => ref_dot a (i * lda) 1 x N
    | CblasTrans => ref_dot a i lda x M
    end in
  let rows := match trans with CblasNoTrans => M | CblasTrans => N end in
  map (fun iy => if (fst iy <? rows)%nat
                 then (alpha * entry (fst iy) + beta * snd iy)%Z
                 else snd iy)
      (combine (seq 0 (length y)) y).

End legate_numpy.

Import cunumeric.

(** ** Vocabulary of the properties *)

(** The extent of a shape at trailing-aligned position [i]
    (position 0 is the last extent). *)
Definition dim_at (s : list N) (i : nat) : option N := nth_error (rev s) i.

Definition compatible_dims (x y : N) : bool :=
  (x =? 1) || (y =? 1) || (x =? y).

(** Two shapes never carry two different extents, both different from 1, at
    the same trailing-aligned position. *)
Definition compatible_pair (s1 s2 : list N) : bool :=
  forallb (fun xy => compatible_dims (fst xy) (snd xy))
          (combine (rev s1) (rev s2)).

(** A list of shapes is broadcast compatible when its shapes are so
    pairwise. *)
Definition broadcast_compatible (shapes : list (list N)) : bool :=
  forallb (fun s1 => forallb (compatible_pair s1) shapes) shapes.

(** *** Shape resolution in the specification's words

    Initialize all result dimensions to 1; for each input, align its
    dimensions to the result's trailing dimensions and adopt the input's
    dimension wherever the result dimension is 1. *)

(** The extents of an input aligned to the trailing positions of a result
    of rank [rank]; [None] where the input has no dimension. *)
Definition aligned (rank : nat) (s : list N) : list (option N) :=
  repeat None (rank - length s) ++ map Some s.

Definition adopt_dim (r : N) (x : option N) : N :=
  match x with
  | Some x => if r =? 1 then x else r
  | None => r
  end.

Definition adopt (result s : list N) : list N :=
  map (fun rx => adopt_dim (fst rx) (snd rx))
      (combine result (aligned (length result) s)).

(** The maximum rank among the inputs. *)
Definition max_rank (arrays : list NDArray) : nat :=
  list_max (map (fun a => length (shape a)) arrays).

Definition resolve_by_adoption (arrays : list NDArray) : list N :=
  fold_left adopt (map shape arrays) (repeat 1 (max_rank arrays)).

(** The decimal rendering of an extent. *)
Definition decimal (d : N) : string := NilEmpty.string_of_uint (N.to_uint d).

(** A message names a shape when every extent of the shape occurs in it. *)
Definition mentions (w : string) (s : list N) : bool :=
  forallb (fun d => match index 0 (decimal d) w with
                    | Some _ => true
                    | None => false
                    end) s.

(** An exception names two shapes when it carries a message that does. *)
Definition names_shapes (e : exn) (s1 s2 : list N) : Prop :=
  exists w, exn_what e = Some w /\ mentions w s1 = true /\ mentions w s2 = true.

(** A call fails when it does not return. *)
Definition fails {A} (o : outcome A) : Prop :=
  match o with
  | Returned _ => False
  | Thrown _ | Aborted => True
  end.

(** The invariant of the outer loop of [broadcast_shapes]: every extent of
    [result] is 1 or the extent of some array already walked, and every
    array already walked has 1 or that extent at the same position. *)
Definition resolved (done : list NDArray) (result : list N) : Prop :=
  forall k d, dim_at result k = Some d ->
    (forall a x, In a done -> dim_at (shape a) k = Some x -> x = 1 \/ x = d) /\
    (d = 1 \/ exists a, In a done /\ dim_at (shape a) k = Some d).

(** The operands of a matrix product are not both of rank 2, or their inner
    extents differ. *)
Definition dot_invalid (rhs1 rhs2 : NDArray) : Prop :=
  dim rhs1 <> 2%Z \/ dim rhs2 <> 2%Z \/
  exists a b c d, shape rhs1 = [a; b] /\ shape rhs2 = [c; d] /\ b <> c.

(** No two arrays carry two different extents, both different from 1, at
    the same trailing-aligned position. *)
Definition conflict_free (arrays : list NDArray) : Prop :=
  forall a b k x y, In a arrays -> In b arrays ->
    dim_at (shape a) k = Some x -> dim_at (shape b) k = Some y ->
    x = 1 \/ y = 1 \/ x = y.

(** Shape [sb] stretches to shape [sa]: it has no more extents, and each of
    them is 1 or the extent of [sa] at the same trailing-aligned position. *)
Definition stretches_to (sb sa : list N) : bool :=
  (length sb <=? length sa)%nat &&
  forallb (fun yx => (fst yx =? 1) || (fst yx =? snd yx))
          (combine (rev sb) (rev sa)).

(** *** Calls of the facade *)

(** An out-of-place entry point of the facade with its arguments. *)
Inductive facade_call :=
| call_abs (input : NDArray)
| call_negative (input : NDArray)
| call_sum (input : NDArray)
| call_add (rhs1 rhs2 : NDArray) (out : option NDArray)
| call_multiply (rhs1 rhs2 : NDArray) (out : option NDArray)
| call_random (shape : list N)
| call_zeros (shape : list N) (type : option legate.Type_)
| call_full (shape : list N) (value : legate.Scalar)
| call_tril (rhs : NDArray) (k : Z)
| call_triu (rhs : NDArray) (k : Z)
| call_dot (rhs1 rhs2 : NDArray).

Definition run_call (cfg : BuildConfig) (c : facade_call) : M NDArray :=
  match c with
  | call_abs input => abs input
  | call_negative input => negative input
  | call_sum input => sum input
  | call_add rhs1 rhs2 out => add cfg rhs1 rhs2 out
  | call_multiply rhs1 rhs2 out => multiply cfg rhs1 rhs2 out
  | call_random shape => random shape
  | call_zeros shape type => zeros shape type
  | call_full shape value => full shape value
  | call_tril rhs k => tril rhs k
  | call_triu rhs k => triu rhs k
  | call_dot rhs1 rhs2 => dot rhs1 rhs2
  end.

(** The output handle the caller passed in, if any. *)
Definition explicit_out (c : facade_call) : option NDArray :=
  match c with
  | call_add _ _ out | call_multiply _ _ out => out
  | _ => None
  end.

(** The event touches no array: it is a diagnostic. *)
Definition is_diagnostic (e : event) : Prop :=
  match e with
  | ev_fprintf_stderr _ _ => True
  | ev_create_array _ _ | ev_submit _ _ => False
  end.

(** A build with assertions compiled out, and a debug build. *)
Definition release_build : BuildConfig := mkBuild false true false.
Definition debug_build : BuildConfig := mkBuild true false false.
Definition openmp_build : BuildConfig := mkBuild false true true.

Definition f64_array (s : list N) : NDArray := mkNDArray s legate.float64.
Definition f32_array (s : list N) : NDArray := mkNDArray s legate.float32.

(** ** Properties of broadcast_shapes *)

Section BroadcastWalk.

Lemma broadcast_walk_cons i in_it o out_it :
  broadcast_walk (i :: in_it) (o :: out_it) =
  if 1 =? o then option_map (cons i) (broadcast_walk in_it out_it)
  else if negb (i =? 1) && negb (o =? i) then None
  else option_map (cons o) (broadcast_walk in_it out_it).
Proof. reflexivity. Qed.

Lemma broadcast_walk_nil_r in_it : broadcast_walk in_it [] = Some [].
Proof. now destruct in_it. Qed.

Lemma broadcast_walk_length in_it : forall out_it r,
  broadcast_walk in_it out_it = Some r -> length r = length out_it.
Proof.
  induction in_it as [|i in_it IH]; intros [|o out_it] r H;
    try (inversion H; reflexivity).
  rewrite broadcast_walk_cons in H.
  destruct (broadcast_walk in_it out_it) as [w|] eqn:E.
  - assert (length w = length out_it) by now apply IH.
    destruct (1 =? o); [|destruct (negb (i =? 1) && negb (o =? i))];
      inversion H; subst; simpl; congruence.
  - destruct (1 =? o); [|destruct (negb (i =? 1) && negb (o =? i))];
      discriminate.
Qed.

(** What the walk leaves at each position. *)
Lemma broadcast_walk_nth in_it : forall out_it r,
  broadcast_walk in_it out_it = Some r ->
  forall k, nth_error r k =
            match nth_error in_it k, nth_error out_it k with
            | Some x, Some o => Some (if 1 =? o then x else o)
            | _, o' => o'
            end.
Proof.
  induction in_it as [|i in_it IH]; intros [|o out_it] r H k.
  - inversion H; subst. now destruct k.
  - inversion H; subst. now destruct k.
  - inversion H; subst. destruct k; simpl; [reflexivity|].
    now destruct (nth_error in_it k).
  - rewrite broadcast_walk_cons in H.
    destruct (broadcast_walk in_it out_it) as [w|] eqn:E.
    + pose proof (IH out_it w E) as IHw.
      destruct (1 =? o) eqn:Eo;
        [|destruct (negb (i =? 1) && negb (o =? i)); [discriminate|]];
        inversion H; subst;
        (destruct k; [cbn [nth_error]; now rewrite Eo | cbn [nth_error]; apply IHw]).
    + destruct (1 =? o); [|destruct (negb (i =? 1) && negb (o =? i))];
        discriminate.
Qed.

(** The walk goes through when no position conflicts. *)
Lemma broadcast_walk_ok in_it : forall out_it,
  (forall k x o, nth_error in_it k = Some x -> nth_error out_it k = Some o ->
                 o = 1 \/ x = 1 \/ o = x) ->
  exists r, broadcast_walk in_it out_it = Some r.
Proof.
  induction in_it as [|i in_it IH]; intros [|o out_it] H;
    try (eexists; reflexivity).
  destruct (IH out_it) as [r Hr].
  { intros k x o' Hx Ho. exact (H (S k) x o' Hx Ho). }
  rewrite broadcast_walk_cons, Hr.
  destruct (N.eqb_spec 1 o); [eexists; reflexivity|].
  destruct (H 0%nat i o eq_refl eq_refl) as [H1 | [H1 | H1]].
  - congruence.
  - subst. rewrite N.eqb_refl. eexists; reflexivity.
  - subst. rewrite N.eqb_refl, andb_false_r. eexists; reflexivity.
Qed.

(** The walk throws when some position conflicts. *)
Lemma broadcast_walk_conflict in_it : forall out_it k x o,
  nth_error in_it k = Some x -> nth_error out_it k = Some o ->
  o <> 1 -> x <> 1 -> o <> x ->
  broadcast_walk in_it out_it = None.
Proof.
  induction in_it as [|i in_it IH]; intros [|o' out_it] k x o Hx Ho H1 H2 H3;
    try (destruct k; discriminate).
  rewrite broadcast_walk_cons.
  destruct k; cbn [nth_error] in Hx, Ho.
  - inversion Hx; inversion Ho; subst.
    destruct (N.eqb_spec 1 o); [congruence|].
    destruct (N.eqb_spec x 1); [congruence|].
    destruct (N.eqb_spec o x); [congruence|]. reflexivity.
  - rewrite (IH out_it k x o Hx Ho H1 H2 H3).
    destruct (1 =? o'); [reflexivity|].
    now destruct (negb (i =? 1) && negb (o' =? i)).
Qed.

End BroadcastWalk.

Lemma broadcast_into_length result s r :
  broadcast_into result s = Some r -> length r = length result.
Proof.
  unfold broadcast_into. intros H.
  destruct (broadcast_walk (rev s) (rev result)) as [w|] eqn:E; inversion H.
  rewrite length_rev, (broadcast_walk_length _ _ _ E). apply length_rev.
Qed.

Lemma broadcast_into_dim_at result s r :
  broadcast_into result s = Some r ->
  forall k, dim_at r k =
            match dim_at s k, dim_at result k with
            | Some x, Some o => Some (if 1 =? o then x else o)
            | _, o' => o'
            end.
Proof.
  unfold broadcast_into, dim_at. intros H k.
  destruct (broadcast_walk (rev s) (rev result)) as [w|] eqn:E; inversion H.
  rewrite rev_involutive. now apply broadcast_walk_nth.
Qed.

Lemma broadcast_into_ok result s :
  (forall k x o, dim_at s k = Some x -> dim_at result k = Some o ->
                 o = 1 \/ x = 1 \/ o = x) ->
  exists r, broadcast_into result s = Some r.
Proof.
  intros H. unfold broadcast_into.
  destruct (broadcast_walk_ok (rev s) (rev result) H) as [w Hw].
  rewrite Hw. eexists; reflexivity.
Qed.

Lemma broadcast_into_conflict result s k x o :
  dim_at s k = Some x -> dim_at result k = Some o ->
  o <> 1 -> x <> 1 -> o <> x ->
  broadcast_into result s = None.
Proof.
  intros Hx Ho H1 H2 H3. unfold broadcast_into.
  now rewrite (broadcast_walk_conflict _ _ k x o Hx Ho H1 H2 H3).
Qed.

(** *** Compatibility, position by position *)

Lemma nth_error_combine_In {X Y} (l1 : list X) : forall (l2 : list Y) k x y,
  nth_error l1 k = Some x -> nth_error l2 k = Some y -> In (x, y) (combine l1 l2).
Proof.
  induction l1 as [|a l1 IH]; intros [|b l2] [|k] x y H1 H2;
    try discriminate; cbn [nth_error] in *.
  - inversion H1; inversion H2; subst. now left.
  - right. eapply IH; eassumption.
Qed.

Lemma compatible_dims_spec x y :
  compatible_dims x y = true -> x = 1 \/ y = 1 \/ x = y.
Proof.
  unfold compatible_dims. intros H.
  destruct (N.eqb_spec x 1); [now left|].
  destruct (N.eqb_spec y 1); [now right; left|].
  destruct (N.eqb_spec x y); [now right; right|discriminate].
Qed.

Lemma broadcast_compatible_spec shapes :
  broadcast_compatible shapes = true ->
  forall s1 s2 k x y, In s1 shapes -> In s2 shapes ->
    dim_at s1 k = Some x -> dim_at s2 k = Some y -> x = 1 \/ y = 1 \/ x = y.
Proof.
  unfold broadcast_compatible, compatible_pair, dim_at.
  intros H s1 s2 k x y I1 I2 Hx Hy.
  rewrite forallb_forall in H. specialize (H s1 I1).
  rewrite forallb_forall in H. specialize (H s2 I2).
  rewrite forallb_forall in H.
  exact (compatible_dims_spec _ _ (H (x, y) (nth_error_combine_In _ _ k x y Hx Hy))).
Qed.

(** *** The rank of the result *)

Lemma max_dim_acc arrays : forall d, (0 <= d)%Z ->
  fold_left (fun d array => Z.max d (dim array)) arrays d =
  Z.max d (Z.of_nat (max_rank arrays)).
Proof.
  unfold max_rank, dim.
  induction arrays as [|a arrays IH]; intros d Hd; simpl.
  - lia.
  - rewrite IH; lia.
Qed.

Lemma max_dim_max_rank arrays : max_dim arrays = Z.of_nat (max_rank arrays).
Proof. unfold max_dim. rewrite max_dim_acc; lia. Qed.

Lemma dim_at_ones n k d : dim_at (repeat 1 n) k = Some d -> d = 1.
Proof.
  unfold dim_at. intros H. apply nth_error_In in H.
  apply in_rev in H. now apply repeat_spec in H.
Qed.

(** *** The outer loop *)

Lemma resolved_step done result a r :
  (forall s, In s done -> forall k x y,
     dim_at (shape s) k = Some x -> dim_at (shape a) k = Some y ->
     x = 1 \/ y = 1 \/ x = y) ->
  resolved done result ->
  broadcast_into result (shape a) = Some r ->
  resolved (done ++ [a]) r.
Proof.
  intros Hc Hinv Hr k d Hd.
  rewrite (broadcast_into_dim_at _ _ _ Hr) in Hd.
  destruct (dim_at (shape a) k) as [x|] eqn:Ex.
  - destruct (dim_at result k) as [o|] eqn:Eo; [|discriminate].
    destruct (Hinv k o Eo) as [Hall Hex].
    destruct (N.eqb_spec 1 o) as [E1|E1];
      inversion Hd as [Hd']; clear Hd.
    + subst o. split.
      * intros a' x' Hin Hx'. apply in_app_or in Hin as [Hin|[<-|[]]].
        -- destruct (Hall a' x' Hin Hx'); now left.
        -- right. congruence.
      * right. exists a. split; [apply in_or_app; right; now left|congruence].
    + subst d. split.
      * intros a' x' Hin Hx'. apply in_app_or in Hin as [Hin|[<-|[]]].
        -- exact (Hall a' x' Hin Hx').
        -- destruct Hex as [Hex|[s [Hs Hso]]]; [congruence|].
           destruct (Hc s Hs k o x' Hso Hx') as [H|[H|H]];
             [congruence|now left|now right].
      * destruct Hex as [Hex|[s [Hs Hso]]]; [now left|].
        right. exists s. split; [apply in_or_app; now left|assumption].
  - destruct (Hinv k d Hd) as [Hall Hex]. split.
    + intros a' x' Hin Hx'. apply in_app_or in Hin as [Hin|[<-|[]]].
      * exact (Hall a' x' Hin Hx').
      * congruence.
    + destruct Hex as [Hex|[s [Hs Hso]]]; [now left|].
      right. exists s. split; [apply in_or_app; now left|assumption].
Qed.

Lemma resolved_into_ok done result a :
  (forall s, In s done -> forall k x y,
     dim_at (shape s) k = Some x -> dim_at (shape a) k = Some y ->
     x = 1 \/ y = 1 \/ x = y) ->
  resolved done result ->
  exists r, broadcast_into result (shape a) = Some r.
Proof.
  intros Hc Hinv. apply broadcast_into_ok. intros k x o Hx Ho.
  destruct (Hinv k o Ho) as [_ [H|[s [Hs Hso]]]]; [now left|].
  destruct (Hc s Hs k o x Hso Hx) as [H|[H|H]]; auto.
Qed.

Lemma broadcast_loop_resolves rest : forall done result,
  (forall s1 s2 k x y, In s1 (done ++ rest) -> In s2 (done ++ rest) ->
     dim_at (shape s1) k = Some x -> dim_at (shape s2) k = Some y ->
     x = 1 \/ y = 1 \/ x = y) ->
  resolved done result ->
  exists r, broadcast_loop rest result = Returned r /\
            length r = length result /\
            resolved (done ++ rest) r.
Proof.
  induction rest as [|a rest IH]; intros done result Hc Hinv.
  - exists result. rewrite app_nil_r. auto.
  - assert (Hca : forall s, In s done -> forall k x y,
               dim_at (shape s) k = Some x -> dim_at (shape a) k = Some y ->
               x = 1 \/ y = 1 \/ x = y).
    { intros s Hs k x y Hx Hy.
      apply (Hc s a k x y); auto using in_or_app, in_eq. }
    destruct (resolved_into_ok done result a Hca Hinv) as [r1 Hr1].
    cbn [broadcast_loop]. rewrite Hr1.
    destruct (IH (done ++ [a]) r1) as [r [Hr [Hlen Hres]]].
    + rewrite <- app_assoc. exact Hc.
    + eapply resolved_step; eassumption.
    + exists r. rewrite <- app_assoc in Hres.
      rewrite Hlen, (broadcast_into_length _ _ _ Hr1). auto.
Qed.

(** *** The loop computes the resolution by adoption *)

Lemma combine_app_eq {X Y} (l1 : list X) : forall (l1' : list Y) l2 l2',
  length l1 = length l1' ->
  combine (l1 ++ l2) (l1' ++ l2') = combine l1 l1' ++ combine l2 l2'.
Proof.
  induction l1 as [|a l1 IH]; intros [|b l1'] l2 l2' H; try discriminate.
  - reflexivity.
  - simpl. f_equal. apply IH. now inversion H.
Qed.

Lemma rev_combine {X Y} (l1 : list X) : forall (l2 : list Y),
  length l1 = length l2 ->
  rev (combine l1 l2) = combine (rev l1) (rev l2).
Proof.
  induction l1 as [|a l1 IH]; intros [|b l2] H; try discriminate.
  - reflexivity.
  - simpl. rewrite combine_app_eq by (rewrite !length_rev; now inversion H).
    rewrite IH by now inversion H. reflexivity.
Qed.

Lemma adopt_nothing (outs : list N) :
  map (fun rx => adopt_dim (fst rx) (snd rx))
      (combine outs (repeat None (length outs))) = outs.
Proof. induction outs as [|o outs IH]; simpl; [reflexivity|now rewrite IH]. Qed.

Lemma broadcast_walk_adopts in_it : forall out_it w,
  broadcast_walk in_it out_it = Some w ->
  (length in_it <= length out_it)%nat ->
  w = map (fun rx => adopt_dim (fst rx) (snd rx))
          (combine out_it
             (map Some in_it ++ repeat None (length out_it - length in_it))).
Proof.
  induction in_it as [|i in_it IH]; intros out_it w H Hlen.
  - destruct out_it; inversion H; subst; [reflexivity|].
    cbn [map app length]. rewrite Nat.sub_0_r.
    symmetry. apply (adopt_nothing (n :: out_it)).
  - destruct out_it as [|o out_it]; [simpl in Hlen; lia|].
    rewrite broadcast_walk_cons in H.
    destruct (broadcast_walk in_it out_it) as [w'|] eqn:E.
    + assert (IHw := IH out_it w' E ltac:(simpl in Hlen; lia)).
      cbn [map app length combine fst snd adopt_dim Nat.sub].
      rewrite <- IHw, (N.eqb_sym o 1).
      destruct (1 =? o); [|destruct (negb (i =? 1) && negb (o =? i))];
        now inversion H.
    + destruct (1 =? o); [|destruct (negb (i =? 1) && negb (o =? i))];
        discriminate.
Qed.

Lemma broadcast_into_adopts result s r :
  broadcast_into result s = Some r ->
  (length s <= length result)%nat ->
  r = adopt result s.
Proof.
  unfold broadcast_into, adopt, aligned. intros H Hlen.
  destruct (broadcast_walk (rev s) (rev result)) as [w|] eqn:E; inversion H.
  apply broadcast_walk_adopts in E; [|rewrite !length_rev; exact Hlen].
  rewrite !length_rev in E. subst w.
  rewrite <- map_rev, rev_combine.
  - now rewrite rev_involutive, rev_app_distr, rev_repeat, <- map_rev,
      rev_involutive.
  - rewrite length_app, repeat_length, length_map, !length_rev. lia.
Qed.

Lemma broadcast_loop_adopts arrays : forall result r,
  broadcast_loop arrays result = Returned r ->
  (forall a, In a arrays -> (length (shape a) <= length result)%nat) ->
  r = fold_left adopt (map shape arrays) result.
Proof.
  induction arrays as [|a arrays IH]; intros result r H Hlen.
  - now inversion H.
  - cbn [broadcast_loop] in H.
    destruct (broadcast_into result (shape a)) as [r1|] eqn:E; [|discriminate].
    pose proof (broadcast_into_length _ _ _ E) as L1.
    apply broadcast_into_adopts in E; [|apply Hlen; now left].
    cbn [map fold_left]. rewrite <- E. apply IH; [exact H|].
    intros b Hb. rewrite L1. apply Hlen. now right.
Qed.

Lemma rank_le_max_rank arrays a :
  In a arrays -> (length (shape a) <= max_rank arrays)%nat.
Proof.
  intros H. unfold max_rank.
  pose proof (proj1 (list_max_le (map (fun a => length (shape a)) arrays) _)
                (Nat.le_refl _)) as HF.
  rewrite Forall_forall in HF. apply HF.
  now apply (in_map (fun a => length (shape a))).
Qed.

Lemma broadcast_shapes_nonempty cfg a arrays :
  broadcast_shapes cfg (a :: arrays) =
  broadcast_loop (a :: arrays) (repeat 1 (Z.to_nat (max_dim (a :: arrays)))).
Proof. unfold broadcast_shapes. now rewrite andb_false_r. Qed.

(** C1.  For every non-empty list of broadcast-compatible input shapes,
    [broadcast_shapes] returns a shape whose rank is the maximum rank among
    the inputs, computed by initializing all extents to 1 and adopting,
    input after input, the input's trailing-aligned extent wherever the
    result's is 1; each of its extents is 1 or the extent some input has at
    the same trailing-aligned position, and every input has 1 or that extent
    there.  In particular (2,3) and (3,) resolve to (2,3), and (2,3) and
    (2,1) resolve to (2,3). *)
Theorem broadcast_shapes_resolves cfg arrays :
  arrays <> [] ->
  broadcast_compatible (map shape arrays) = true ->
  (exists r,
     broadcast_shapes cfg arrays = Returned r /\
     length r = max_rank arrays /\
     r = resolve_by_adoption arrays /\
     forall k d, dim_at r k = Some d ->
       (forall a x, In a arrays -> dim_at (shape a) k = Some x ->
                    x = 1 \/ x = d) /\
       (d = 1 \/ exists a, In a arrays /\ dim_at (shape a) k = Some d)) /\
  broadcast_shapes cfg [f64_array [2; 3]; f64_array [3]] = Returned [2; 3] /\
  broadcast_shapes cfg [f64_array [2; 3]; f64_array [2; 1]] = Returned [2; 3].
Proof.
  intros Hne Hc. split; [|split; rewrite broadcast_shapes_nonempty; reflexivity].
  destruct arrays as [|a arrays]; [congruence|].
  rewrite broadcast_shapes_nonempty.
  destruct (broadcast_loop_resolves (a :: arrays) []
              (repeat 1 (Z.to_nat (max_dim (a :: arrays)))))
    as [r [Hr [Hlen Hres]]].
  - intros s1 s2 k x y I1 I2.
    apply (broadcast_compatible_spec _ Hc); now apply in_map.
  - intros k d Hd. apply dim_at_ones in Hd. split; [intros ? ? []|now left].
  - rewrite max_dim_max_rank, Nat2Z.id in Hr, Hlen |- *.
    rewrite repeat_length in Hlen.
    exists r. split; [exact Hr|]. split; [exact Hlen|]. split; [|exact Hres].
    apply broadcast_loop_adopts; [exact Hr|].
    intros b Hb. rewrite repeat_length. now apply rank_le_max_rank.
Qed.

Lemma broadcast_shapes_resolves_witness :
  exists r,
    broadcast_shapes release_build [f64_array [3]; f64_array [2; 3]; f64_array []]
      = Returned r /\ length r = 2%nat.
Proof.
  destruct (broadcast_shapes_resolves release_build
              [f64_array [3]; f64_array [2; 3]; f64_array []])
    as [[r [Hr [Hlen _]]] _].
  - discriminate.
  - reflexivity.
  - exists r. split; [exact Hr | exact Hlen].
Defined.

(** *** Conflicting shapes *)

Lemma dim_at_lt s k x : dim_at s k = Some x -> (k < length s)%nat.
Proof.
  unfold dim_at. intros H. rewrite <- length_rev.
  apply nth_error_Some. congruence.
Qed.

Lemma dim_at_ones_lt n k : (k < n)%nat -> dim_at (repeat 1 n) k = Some 1.
Proof.
  intros H. unfold dim_at. rewrite rev_repeat. now apply nth_error_repeat.
Qed.

(** C2 (amended).  For every pair of input shapes that carry two different
    extents, both different from 1, at the same trailing-aligned position,
    [broadcast_shapes] fails: it throws the bare [std::exception], an object
    without a message, which names neither shape. *)
Theorem broadcast_shapes_conflict_throws cfg a b k x y :
  dim_at (shape a) k = Some x ->
  dim_at (shape b) k = Some y ->
  x <> 1 -> y <> 1 -> x <> y ->
  broadcast_shapes cfg [a; b] = Thrown std_exception /\
  exn_what std_exception = None /\
  ~ names_shapes std_exception (shape a) (shape b).
Proof.
  intros Hx Hy H1 H2 H3. split; [|split; [reflexivity|]].
  - rewrite broadcast_shapes_nonempty. cbn [broadcast_loop].
    set (D := Z.to_nat (max_dim [a; b])).
    assert (HD : (k < D)%nat).
    { subst D. rewrite max_dim_max_rank, Nat2Z.id. unfold max_rank.
      apply dim_at_lt in Hx. simpl. lia. }
    destruct (broadcast_into_ok (repeat 1 D) (shape a)) as [r1 Hr1].
    { intros j x' o _ Ho. left. eapply dim_at_ones; eassumption. }
    rewrite Hr1.
    assert (Hk : dim_at r1 k = Some x).
    { rewrite (broadcast_into_dim_at _ _ _ Hr1), Hx, (dim_at_ones_lt _ _ HD).
      reflexivity. }
    rewrite (broadcast_into_conflict r1 (shape b) k y x Hy Hk H1 H2 H3).
    reflexivity.
  - intros [w [Hw _]]. discriminate.
Qed.

Lemma broadcast_shapes_conflict_throws_witness :
  broadcast_shapes release_build [f64_array [2; 3]; f64_array [4; 3]]
    = Thrown std_exception.
Proof.
  apply (broadcast_shapes_conflict_throws release_build
           (f64_array [2; 3]) (f64_array [4; 3]) 1%nat 2 4).
  - reflexivity.
  - reflexivity.
  - discriminate.
  - discriminate.
  - discriminate.
Defined.

(** C2 as stated does not hold: for (2,3) and (4,3) the failure is not an
    error that names the two shapes. *)
Lemma broadcast_shapes_error_names_no_shape :
  ~ (exists e,
       broadcast_shapes release_build [f64_array [2; 3]; f64_array [4; 3]]
         = Thrown e /\
       names_shapes e [2; 3] [4; 3]).
Proof.
  intros [e [He [w [Hw _]]]].
  vm_compute in He. inversion He; subst. discriminate.
Qed.

Example names_shapes_example :
  names_shapes (std_invalid_argument "shapes (2, 3) and (4, 3) do not broadcast")
    [2; 3] [4; 3].
Proof. eexists. split; [reflexivity|]. split; reflexivity. Qed.

(** *** The empty operand list *)

Example broadcast_shapes_empty_debug_aborts :
  broadcast_shapes debug_build [] = Aborted.
Proof. reflexivity. Qed.

(** C9 (amended).  Applied to an empty list, [broadcast_shapes] fails fast
    (a failed assertion terminates the process, no shape is returned) in the
    builds that define DEBUG_CUNUMERIC and keep assertions enabled; in every
    other build the list is not checked and the empty shape is returned. *)
Theorem broadcast_shapes_empty cfg :
  broadcast_shapes cfg [] =
  if DEBUG_CUNUMERIC cfg && negb (NDEBUG cfg) then Aborted else Returned [].
Proof.
  unfold broadcast_shapes. rewrite andb_true_r.
  now destruct (DEBUG_CUNUMERIC cfg && negb (NDEBUG cfg)).
Qed.

(** C9 as stated does not hold: in a build without DEBUG_CUNUMERIC the
    empty list does not fail, a shape is returned. *)
Lemma broadcast_shapes_empty_release_returns :
  broadcast_shapes release_build [] = Returned [] /\
  ~ (forall cfg, fails (broadcast_shapes cfg [])).
Proof.
  split; [reflexivity|]. intros H. exact (H release_build).
Qed.

(** ** Properties of the facade *)

Lemma not_narrower_refl t : ~ narrower t t.
Proof.
  unfold narrower. destruct (legate.size_of (legate.code t)); [lia|tauto].
Qed.

(** C4 (amended).  For every binary elementwise operation invoked without
    an explicit output handle, the newly constructed output array has the
    element type of the first operand, so it is never narrower than the
    first operand's; its shape is the broadcast of the operands' shapes. *)
Theorem binary_op_output_type cfg op_code rhs1 rhs2 tr out :
  binary_op cfg op_code rhs1 rhs2 None = (tr, Returned out) ->
  type out = type rhs1 /\
  ~ narrower (type out) (type rhs1) /\
  broadcast_shapes cfg [rhs1; rhs2] = Returned (shape out).
Proof.
  unfold binary_op, bind, lift, create_array, submit, emit, ret, bind.
  destruct (broadcast_shapes cfg [rhs1; rhs2]) as [r| |]; try discriminate.
  cbn. intros H; inversion H; subst; cbn.
  split; [reflexivity|]. split; [apply not_narrower_refl|reflexivity].
Qed.

Lemma binary_op_output_type_witness :
  exists tr out,
    binary_op release_build ADD (f32_array [2; 3]) (f64_array [3]) None
      = (tr, Returned out) /\
    type out = legate.float32 /\ shape out = [2; 3].
Proof.
  eexists. eexists.
  assert (E : binary_op release_build ADD (f32_array [2; 3]) (f64_array [3]) None
              = ([ev_create_array [2; 3] legate.float32;
                  ev_submit (f32_array [2; 3])
                    (op_binary_op ADD (f32_array [2; 3]) (f64_array [3]))],
                 Returned (f32_array [2; 3]))) by reflexivity.
  split; [exact E|].
  destruct (binary_op_output_type _ _ _ _ _ _ E) as [Ht _].
  split; [exact Ht | reflexivity].
Defined.

(** C4 as stated does not hold: adding a 32-bit float array and a 64-bit
    float array without an output handle yields a 32-bit float array,
    narrower than the second operand. *)
Lemma binary_op_output_narrower_than_rhs2 :
  exists tr out,
    binary_op release_build ADD (f32_array [2]) (f64_array [2]) None
      = (tr, Returned out) /\
    narrower (type out) (type (f64_array [2])).
Proof.
  eexists. eexists. split; [reflexivity|]. cbv. reflexivity.
Qed.

(** C7 (amended).  For every matrix-product call in which either operand's
    rank is not exactly 2, or the inner extents differ, [dot] prints a
    diagnostic on the standard error stream and terminates the process: no
    output array is created, nothing is submitted, and no exception reaches
    the caller. *)
Theorem dot_invalid_aborts rhs1 rhs2 :
  dot_invalid rhs1 rhs2 ->
  exists format args,
    dot rhs1 rhs2 = ([ev_fprintf_stderr format args], Aborted).
Proof.
  unfold dot_invalid, dot. intros H.
  destruct (Z.eqb_spec (dim rhs1) 2) as [E1|E1];
    [|do 2 eexists; reflexivity].
  destruct (Z.eqb_spec (dim rhs2) 2) as [E2|E2];
    [|do 2 eexists; reflexivity].
  destruct H as [H|[H|[a [b [c [d [H1 [H2 Hbc]]]]]]]]; try contradiction.
  rewrite H1, H2. cbn [negb orb nth].
  destruct (N.eqb_spec b c); [contradiction|].
  do 2 eexists; reflexivity.
Qed.

Lemma dot_invalid_aborts_witness :
  exists format args,
    dot (f64_array [4; 5]) (f64_array [4; 5])
      = ([ev_fprintf_stderr format args], Aborted).
Proof.
  apply (dot_invalid_aborts (f64_array [4; 5]) (f64_array [4; 5])).
  right. right. exists 4, 5, 4, 5.
  split; [reflexivity|]. split; [reflexivity|discriminate].
Defined.

(** C7 as stated does not hold: the product of a vector and a matrix ends
    the process, no exception propagates to the caller. *)
Lemma dot_rank_mismatch_not_thrown :
  dot (f64_array [4]) (f64_array [4; 5])
    = ([ev_fprintf_stderr "cunumeric::dot only supports matrices now" []],
       Aborted) /\
  ~ (exists tr e, dot (f64_array [4]) (f64_array [4; 5]) = (tr, Thrown e)).
Proof.
  split; [reflexivity|]. intros [tr [e H]]. vm_compute in H. discriminate.
Qed.

(** C8.  Triangular extraction: a rank-0 input fails with
    [std::invalid_argument] before any array is created or operation
    submitted; a rank-1 input of length n yields a new output array of shape
    (n, n); an input of rank at least 2 yields a new output array of the
    input's shape.  [tril] and [triu] are [trilu] with [lower] set and
    unset. *)
Theorem trilu_output_shape rhs k lower :
  trilu rhs k lower =
  match shape rhs with
  | [] => ([], Thrown (std_invalid_argument "Dim of input array must be > 0"))
  | [n] =>
      let out := mkNDArray [n; n] (type rhs) in
      ([ev_create_array [n; n] (type rhs);
        ev_submit out (op_trilu rhs k lower)], Returned out)
  | _ :: _ :: _ =>
      let out := mkNDArray (shape rhs) (type rhs) in
      ([ev_create_array (shape rhs) (type rhs);
        ev_submit out (op_trilu rhs k lower)], Returned out)
  end /\
  tril rhs k = trilu rhs k true /\
  triu rhs k = trilu rhs k false.
Proof.
  split; [|split; reflexivity].
  destruct rhs as [[|n [|n' s]] ty]; try reflexivity.
  unfold trilu, dim. cbn [shape type length].
  destruct (Z.eqb_spec (Z.of_nat (S (S (length s)))) 0); [lia|].
  destruct (Z.eqb_spec (Z.of_nat (S (S (length s)))) 1); [lia|].
  reflexivity.
Qed.

(** C10.  [zeros] called with a null type yields an array whose element
    type is 64-bit floating point, and [random] always does. *)
Theorem zeros_random_default_float64 s :
  (exists tr out, zeros s None = (tr, Returned out) /\
                  type out = legate.float64 /\ shape out = s) /\
  (exists tr out, random s = (tr, Returned out) /\
                  type out = legate.float64 /\ shape out = s) /\
  legate.code legate.float64 = legate.FLOAT64 /\
  legate.size_of legate.FLOAT64 = Some 8%Z.
Proof.
  split; [|split; [|split; reflexivity]];
    do 2 eexists; (split; [reflexivity|split; reflexivity]).
Qed.

(** ** Properties of the Cholesky kernels *)

Section PotrfProperties.

Import potrf.

Variables float double complex_float complex_double : Type.
Variable LAPACK_spotrf : ascii -> Z -> list float -> Z -> list float * Z.
Variable LAPACK_dpotrf : ascii -> Z -> list double -> Z -> list double * Z.
Variable LAPACK_cpotrf :
  ascii -> Z -> list complex_float -> Z -> list complex_float * Z.
Variable LAPACK_zpotrf :
  ascii -> Z -> list complex_double -> Z -> list complex_double * Z.

Local Abbreviation Store := (Store float double complex_float complex_double).
Local Abbreviation info :=
  (lapack_info float double complex_float complex_double
     LAPACK_spotrf LAPACK_dpotrf LAPACK_cpotrf LAPACK_zpotrf).
Local Abbreviation left_by_lapack :=
  (lapack_store float double complex_float complex_double
     LAPACK_spotrf LAPACK_dpotrf LAPACK_cpotrf LAPACK_zpotrf).
Local Abbreviation body :=
  (PotrfImplBody_CPU float double complex_float complex_double
     LAPACK_spotrf LAPACK_dpotrf LAPACK_cpotrf LAPACK_zpotrf).
Local Abbreviation variant :=
  (cpu_variant float double complex_float complex_double
     LAPACK_spotrf LAPACK_dpotrf LAPACK_cpotrf LAPACK_zpotrf).

(** Every kernel body enters its LAPACK routine once, under the thread
    count in force, and leaves that count alone. *)
Lemma PotrfImplBody_CPU_trace (s : Store) st :
  exists routine,
    fst (fst (body s st)) =
    mkBlas (num_threads st) (trace st ++ [ev_lapack routine (num_threads st)]).
Proof.
  destruct s as [a m n|a m n|a m n|a m n];
    cbn [PotrfImplBody_CPU];
    unfold PotrfImplBody_CPU_FLOAT32, PotrfImplBody_CPU_FLOAT64,
           PotrfImplBody_CPU_COMPLEX64, PotrfImplBody_CPU_COMPLEX128.
  - destruct (LAPACK_spotrf "L" n a m) as [a' i].
    exists "spotrf"%string. now destruct (negb (i =? 0)%Z).
  - destruct (LAPACK_dpotrf "L" n a m) as [a' i].
    exists "dpotrf"%string. now destruct (negb (i =? 0)%Z).
  - destruct (LAPACK_cpotrf "L" n a m) as [a' i].
    exists "cpotrf"%string. now destruct (negb (i =? 0)%Z).
  - destruct (LAPACK_zpotrf "L" n a m) as [a' i].
    exists "zpotrf"%string. now destruct (negb (i =? 0)%Z).
Qed.

(** C3 (amended).  For each of the four element types, when the external
    potrf routine reports a nonzero status the kernel body does not return:
    it throws the task exception "Matrix is not positive definite".  The
    buffer, factored in place, is then what the routine left in it, partial
    factor included: nothing is restored. *)
Theorem potrf_nonzero_status_throws (s : Store) st :
  info s <> 0%Z ->
  snd (body s st) = Thrown (TaskException "Matrix is not positive definite") /\
  ~ (exists u, snd (body s st) = Returned u) /\
  snd (fst (body s st)) = left_by_lapack s.
Proof.
  intros H.
  assert (E : snd (body s st)
              = Thrown (TaskException "Matrix is not positive definite") /\
              snd (fst (body s st)) = left_by_lapack s).
  { destruct s as [a m n|a m n|a m n|a m n];
      cbn [PotrfImplBody_CPU lapack_info lapack_store] in *;
      unfold PotrfImplBody_CPU_FLOAT32, PotrfImplBody_CPU_FLOAT64,
             PotrfImplBody_CPU_COMPLEX64, PotrfImplBody_CPU_COMPLEX128.
    - destruct (LAPACK_spotrf "L" n a m) as [a' i]; cbn [fst snd] in *.
      destruct (Z.eqb_spec i 0); [contradiction|]. split; reflexivity.
    - destruct (LAPACK_dpotrf "L" n a m) as [a' i]; cbn [fst snd] in *.
      destruct (Z.eqb_spec i 0); [contradiction|]. split; reflexivity.
    - destruct (LAPACK_cpotrf "L" n a m) as [a' i]; cbn [fst snd] in *.
      destruct (Z.eqb_spec i 0); [contradiction|]. split; reflexivity.
    - destruct (LAPACK_zpotrf "L" n a m) as [a' i]; cbn [fst snd] in *.
      destruct (Z.eqb_spec i 0); [contradiction|]. split; reflexivity. }
  destruct E as [E1 E2].
  split; [exact E1|]. split; [|exact E2]. intros [u Hu]. congruence.
Qed.

(** When the routine reports status zero the kernel body returns. *)
Lemma potrf_zero_status_returns (s : Store) st :
  info s = 0%Z -> snd (body s st) = Returned tt.
Proof.
  intros H.
  destruct s as [a m n|a m n|a m n|a m n];
    cbn [PotrfImplBody_CPU lapack_info] in *;
    unfold PotrfImplBody_CPU_FLOAT32, PotrfImplBody_CPU_FLOAT64,
           PotrfImplBody_CPU_COMPLEX64, PotrfImplBody_CPU_COMPLEX128.
  - destruct (LAPACK_spotrf "L" n a m) as [a' i]; cbn [snd] in H.
    now subst i.
  - destruct (LAPACK_dpotrf "L" n a m) as [a' i]; cbn [snd] in H.
    now subst i.
  - destruct (LAPACK_cpotrf "L" n a m) as [a' i]; cbn [snd] in H.
    now subst i.
  - destruct (LAPACK_zpotrf "L" n a m) as [a' i]; cbn [snd] in H.
    now subst i.
Qed.

(** Without OpenMP the variant leaves the thread count as it finds it. *)
Lemma cpu_variant_without_openmp cfg (context : Store) st :
  LEGATE_USE_OPENMP cfg = false ->
  variant cfg context st = body context st.
Proof. intros H. unfold cpu_variant, potrf_template_CPU. now rewrite H. Qed.

(** C6.  In a build with OpenMP enabled, the CPU variant of the Cholesky
    task first sets the thread count of the external library to one, and
    every LAPACK routine the kernel then enters runs under that count:
    none is entered with more than one thread. *)
Theorem cpu_variant_pins_threads cfg (context : Store) st :
  LEGATE_USE_OPENMP cfg = true ->
  exists rest,
    trace (fst (fst (variant cfg context st)))
      = trace st ++ ev_set_num_threads 1 :: rest /\
    (forall e, In e rest -> ~ oversubscribed e) /\
    (exists routine, In (ev_lapack routine 1) rest).
Proof.
  intros H. unfold cpu_variant, potrf_template_CPU.
  rewrite H.
  destruct (PotrfImplBody_CPU_trace context (openblas_set_num_threads 1 st))
    as [routine E].
  rewrite E. cbn [trace num_threads openblas_set_num_threads].
  exists [ev_lapack routine 1]. split; [now rewrite <- app_assoc|].
  split.
  - intros e [<-|[]]. cbn. lia.
  - exists routine. now left.
Qed.

End PotrfProperties.

Lemma potrf_nonzero_status_throws_witness :
  snd (potrf.PotrfImplBody_CPU Z Z Z Z
         potrf.ref_potrf_2x2 potrf.ref_potrf_2x2
         potrf.ref_potrf_2x2 potrf.ref_potrf_2x2
         (potrf.store_COMPLEX128 Z Z Z Z [4; 6; 6; 5]%Z 2 2) (potrf.mkBlas 8 []))
    = Thrown (TaskException "Matrix is not positive definite") /\
  snd (fst (potrf.PotrfImplBody_CPU Z Z Z Z
              potrf.ref_potrf_2x2 potrf.ref_potrf_2x2
              potrf.ref_potrf_2x2 potrf.ref_potrf_2x2
              (potrf.store_COMPLEX128 Z Z Z Z [4; 6; 6; 5]%Z 2 2)
              (potrf.mkBlas 8 [])))
    = potrf.store_COMPLEX128 Z Z Z Z [2; 3; 6; -4]%Z 2 2.
Proof.
  destruct (potrf_nonzero_status_throws Z Z Z Z
              potrf.ref_potrf_2x2 potrf.ref_potrf_2x2
              potrf.ref_potrf_2x2 potrf.ref_potrf_2x2
              (potrf.store_COMPLEX128 Z Z Z Z [4; 6; 6; 5]%Z 2 2)
              (potrf.mkBlas 8 [])) as [Ht [_ Hb]].
  - vm_compute. discriminate.
  - split; [exact Ht | exact Hb].
Defined.

(** C3 as stated does not hold: factoring [[1,2],[2,1]], which is not
    positive definite, throws, and the buffer is left partially factored
    (the first column replaced by the factor's, the failed pivot -3 stored
    on the diagonal) instead of without output. *)
Lemma potrf_failure_leaves_partial_factor :
  potrf.lapack_info Z Z Z Z
    potrf.ref_potrf_2x2 potrf.ref_potrf_2x2
    potrf.ref_potrf_2x2 potrf.ref_potrf_2x2
    (potrf.store_FLOAT64 Z Z Z Z [1; 2; 2; 1]%Z 2 2) = 2%Z /\
  snd (potrf.PotrfImplBody_CPU Z Z Z Z
         potrf.ref_potrf_2x2 potrf.ref_potrf_2x2
         potrf.ref_potrf_2x2 potrf.ref_potrf_2x2
         (potrf.store_FLOAT64 Z Z Z Z [1; 2; 2; 1]%Z 2 2) (potrf.mkBlas 1 []))
    = Thrown (TaskException "Matrix is not positive definite") /\
  snd (fst (potrf.PotrfImplBody_CPU Z Z Z Z
              potrf.ref_potrf_2x2 potrf.ref_potrf_2x2
              potrf.ref_potrf_2x2 potrf.ref_potrf_2x2
              (potrf.store_FLOAT64 Z Z Z Z [1; 2; 2; 1]%Z 2 2)
              (potrf.mkBlas 1 [])))
    = potrf.store_FLOAT64 Z Z Z Z [1; 2; 2; -3]%Z 2 2 /\
  snd (fst (potrf.PotrfImplBody_CPU Z Z Z Z
              potrf.ref_potrf_2x2 potrf.ref_potrf_2x2
              potrf.ref_potrf_2x2 potrf.ref_potrf_2x2
              (potrf.store_FLOAT64 Z Z Z Z [1; 2; 2; 1]%Z 2 2)
              (potrf.mkBlas 1 [])))
    <> potrf.store_FLOAT64 Z Z Z Z [1; 2; 2; 1]%Z 2 2.
Proof.
  split; [reflexivity|]. split; [reflexivity|]. split; [reflexivity|].
  vm_compute. discriminate.
Qed.

Lemma cpu_variant_pins_threads_witness :
  exists rest,
    potrf.trace (fst (fst (potrf.ref_cpu_variant openmp_build
                             (potrf.store_FLOAT32 Z Z Z Z [9%Z] 1 1)
                             (potrf.mkBlas 8 []))))
      = [] ++ potrf.ev_set_num_threads 1 :: rest /\
    (forall e, In e rest -> ~ potrf.oversubscribed e) /\
    (exists routine, In (potrf.ev_lapack routine 1) rest).
Proof.
  apply (cpu_variant_pins_threads Z Z Z Z
           potrf.ref_potrf potrf.ref_potrf potrf.ref_potrf potrf.ref_potrf
           openmp_build (potrf.store_FLOAT32 Z Z Z Z [9%Z] 1 1)
           (potrf.mkBlas 8 [])).
  reflexivity.
Defined.

(** ** Properties of the matrix-vector kernels *)

Section ConvertLoop.

Import legate_numpy.

Context {U T : Type} (conv : U -> T).

Lemma store_middle (pre : list T) u rest v :
  store (pre ++ u :: rest) (length pre) v = Some (pre ++ v :: rest).
Proof.
  unfold store.
  assert (L : (length pre <? length (pre ++ u :: rest))%nat = true).
  { apply Nat.ltb_lt. rewrite length_app. simpl. lia. }
  rewrite L. f_equal. f_equal.
  - rewrite firstn_app, firstn_all, Nat.sub_diag. cbn [firstn].
    apply app_nil_r.
  - f_equal. rewrite skipn_app, skipn_all2 by lia.
    replace (S (length pre) - length pre)%nat with 1%nat by lia.
    reflexivity.
Qed.

(** The loop overwrites the cells it visits, and only those. *)
Lemma convert_loop_middle dst src (imid : list U) :
  forall j (pre mid post : list T) (ipre ipost : list U),
    length pre = (dst + j)%nat ->
    length ipre = (src + j)%nat ->
    length mid = length imid ->
    convert_loop conv (length imid) j dst src
      (pre ++ mid ++ post) (ipre ++ imid ++ ipost)
    = Some (pre ++ map conv imid ++ post).
Proof.
  induction imid as [|v imid IH]; intros j pre mid post ipre ipost Hp Hi Hm.
  - destruct mid; [reflexivity|discriminate].
  - destruct mid as [|u mid]; [discriminate|].
    cbn [length convert_loop].
    rewrite <- Hi, nth_error_app2, Nat.sub_diag by lia. cbn [nth_error app].
    rewrite <- Hp, store_middle.
    replace (pre ++ conv v :: mid ++ post)
      with ((pre ++ [conv v]) ++ mid ++ post) by now rewrite <- app_assoc.
    replace (ipre ++ v :: imid ++ ipost)
      with ((ipre ++ [v]) ++ imid ++ ipost) by now rewrite <- app_assoc.
    rewrite IH.
    + now rewrite <- app_assoc.
    + rewrite length_app. simpl. lia.
    + rewrite length_app. simpl. lia.
    + now inversion Hm.
Qed.

(** A loop over the first [n] cells of both buffers. *)
Lemma convert_loop_prefix n (out : list T) (inp : list U) :
  (n <= length out)%nat -> (n <= length inp)%nat ->
  convert_loop conv n 0 0 0 out inp
  = Some (map conv (firstn n inp) ++ skipn n out).
Proof.
  intros Ho Hi.
  pose proof (convert_loop_middle 0 0 (firstn n inp) 0
                [] (firstn n out) (skipn n out) [] (skipn n inp)) as H.
  rewrite !length_firstn, !Nat.min_l in H by lia.
  cbn [app] in H. rewrite !firstn_skipn in H. now apply H.
Qed.

End ConvertLoop.

Section MatVecMulProperties.

Import legate_numpy.

Variables half float : Type.
Variable half_to_float : half -> float.
Variable float_to_half : float -> half.
Variable float_of_int : Z -> float.
Variable indeterminate : float.
Variable cblas_sgemv :
  CBLAS_ORDER -> CBLAS_TRANSPOSE -> Z -> Z -> float ->
  list float -> Z -> list float -> Z -> float -> list float -> Z ->
  list float.

Lemma matrix_row_length inp n pitch r :
  (r * pitch + n <= length inp)%nat ->
  length (matrix_row half inp n pitch r) = n.
Proof.
  intros H. unfold matrix_row. rewrite length_firstn, length_skipn. lia.
Qed.

(** Rows [i] to [i + k - 1] of the dense buffer receive the widened rows
    of the operand; the rest of the buffer is left as it was. *)
Lemma half_matrix_to_float_loop_rows n pitch inp k :
  forall i (pre area post : list float),
    length pre = (i * n)%nat ->
    length area = (k * n)%nat ->
    (forall r, (i <= r < i + k)%nat -> (r * pitch + n <= length inp)%nat) ->
    half_matrix_to_float_loop half float half_to_float k i n pitch
      (pre ++ area ++ post) inp
    = Some (pre ++ flat_map (widen_row half float half_to_float inp n pitch) (seq i k)
            ++ post).
Proof.
  induction k as [|k IH]; intros i pre area post Hp Ha Hb.
  - destruct area; [reflexivity|discriminate].
  - cbn [half_matrix_to_float_loop seq flat_map].
    assert (Hi : (i * pitch + n <= length inp)%nat) by (apply Hb; lia).
    pose proof (matrix_row_length inp n pitch i Hi) as Hrow.
    pose proof (convert_loop_middle half_to_float (i * n) (i * pitch)
                  (matrix_row half inp n pitch i) 0
                  pre (firstn n area) (skipn n area ++ post)
                  (firstn (i * pitch) inp)
                  (skipn n (skipn (i * pitch) inp))) as Hc.
    assert (Einp : firstn (i * pitch) inp ++ matrix_row half inp n pitch i
                     ++ skipn n (skipn (i * pitch) inp) = inp).
    { unfold matrix_row. now rewrite firstn_skipn, firstn_skipn. }
    assert (Eout : pre ++ firstn n area ++ skipn n area ++ post
                   = pre ++ area ++ post).
    { now rewrite (app_assoc (firstn n area)), firstn_skipn. }
    rewrite Hrow, Einp, Eout in Hc.
    rewrite Hc.
    + fold (widen_row half float half_to_float inp n pitch i).
      set (row := widen_row half float half_to_float inp n pitch i).
      replace (pre ++ row ++ skipn n area ++ post)
        with ((pre ++ row) ++ skipn n area ++ post)
        by now rewrite <- app_assoc.
      rewrite IH.
      * now rewrite <- !app_assoc.
      * rewrite length_app. subst row. unfold widen_row.
        rewrite length_map, Hrow. lia.
      * rewrite length_skipn. lia.
      * intros r Hr. apply Hb. lia.
    + lia.
    + rewrite length_firstn. lia.
    + rewrite length_firstn. lia.
Qed.

(** With rows of no cell, nothing is read or written. *)
Lemma half_matrix_to_float_loop_no_column pitch inp out k : forall i,
  half_matrix_to_float_loop half float half_to_float k i 0 pitch out inp
  = Some out.
Proof. induction k as [|k IH]; intros i; [reflexivity|apply IH]. Qed.

Lemma widen_matrix_no_column inp m pitch :
  widen_matrix half float half_to_float inp m 0 pitch = [].
Proof.
  unfold widen_matrix. generalize (seq 0 (N.to_nat m)).
  induction l as [|r l IH]; [reflexivity|exact IH].
Qed.

Lemma allocate_buffer_length size :
  length (allocate_buffer float indeterminate size) = N.to_nat size.
Proof. apply repeat_length. Qed.

(** Promotion of the matrix operand into a fresh dense buffer. *)
Lemma half_matrix_to_float_widens inp m n pitch :
  m * n < size_max ->
  matrix_in_bounds half m n pitch inp = true ->
  half_matrix_to_float half float half_to_float
    (allocate_buffer float indeterminate (size_mul m n)) inp m n pitch
  = Some (widen_matrix half float half_to_float inp m n pitch).
Proof.
  intros Hmn Hb. unfold half_matrix_to_float, size_mul.
  rewrite N.mod_small by exact Hmn.
  destruct (N.eqb_spec n 0) as [->|Hn].
  - rewrite N.mul_0_r, widen_matrix_no_column.
    apply half_matrix_to_float_loop_no_column.
  - pose proof (half_matrix_to_float_loop_rows (N.to_nat n) (N.to_nat pitch)
                  inp (N.to_nat m) 0 []
                  (allocate_buffer float indeterminate (m * n)) []) as H.
    rewrite app_nil_r in H. cbn [app] in H.
    unfold widen_matrix. rewrite app_nil_r in H. apply H.
    + reflexivity.
    + rewrite allocate_buffer_length. lia.
    + intros r Hr. unfold matrix_in_bounds in Hb.
      destruct (N.eqb_spec m 0); [lia|].
      destruct (N.eqb_spec n 0); [lia|].
      cbn [orb] in Hb. apply N.leb_le in Hb. nia.
Qed.

Lemma half_vector_to_float_widens inp n :
  (N.to_nat n <= length inp)%nat ->
  half_vector_to_float half float half_to_float
    (allocate_buffer float indeterminate n) inp n
  = Some (widen_vector half float half_to_float inp n).
Proof.
  intros H. unfold half_vector_to_float, widen_vector.
  rewrite convert_loop_prefix, skipn_all2, app_nil_r;
    rewrite ?allocate_buffer_length; auto.
Qed.

Lemma float_vector_to_half_narrows lhs r n :
  (N.to_nat n <= length lhs)%nat -> (N.to_nat n <= length r)%nat ->
  float_vector_to_half half float float_to_half lhs r n
  = Some (narrow_into half float float_to_half lhs r n).
Proof. intros. now apply convert_loop_prefix. Qed.

(** [cblas_sgemv] updates [Y] in place. *)
Hypothesis cblas_sgemv_in_place :
  forall order trans M N alpha a lda x incX beta y incY,
    length (cblas_sgemv order trans M N alpha a lda x incX beta y incY)
    = length y.

(** C5.  The half-precision matrix-vector kernel is equivalent to
    promoting its operands to single precision, executing the
    single-precision kernel on the promoted buffers and narrowing the
    result back to half precision: for every m, n, row stride and both
    orientations of the vector, on operands that lie inside their buffers
    it returns the narrowed result of the single-precision kernel applied
    to the widened operands. *)
Theorem half_kernel_promotes_executes_narrows
    (m n : N) (lhs rhs1 rhs2 : list half) (rhs_stride : N)
    (vec_on_lhs : bool) :
  m * n < size_max ->
  (N.to_nat (if vec_on_lhs then m else n)
     <= length (if vec_on_lhs then rhs1 else rhs2))%nat ->
  matrix_in_bounds half m n rhs_stride (if vec_on_lhs then rhs2 else rhs1)
    = true ->
  (N.to_nat (if vec_on_lhs then n else m) <= length lhs)%nat ->
  MatVecMulImplBody_OMP_HALF half float half_to_float float_to_half
    float_of_int indeterminate cblas_sgemv
    m n lhs rhs1 rhs2 rhs_stride vec_on_lhs
  = Some (promote_execute_narrow half float half_to_float float_to_half
            float_of_int indeterminate cblas_sgemv
            m n lhs rhs1 rhs2 rhs_stride vec_on_lhs).
Proof.
  intros Hmn Hvec Hmat Hlhs.
  unfold MatVecMulImplBody_OMP_HALF, promote_execute_narrow,
         MatVecMulImplBody_OMP_FLOAT.
  destruct vec_on_lhs.
  - rewrite (half_vector_to_float_widens _ _ Hvec). cbn [obind].
    rewrite (half_matrix_to_float_widens _ _ _ _ Hmn Hmat). cbn [obind].
    apply float_vector_to_half_narrows; [exact Hlhs|].
    rewrite cblas_sgemv_in_place, allocate_buffer_length. lia.
  - rewrite (half_matrix_to_float_widens _ _ _ _ Hmn Hmat). cbn [obind].
    rewrite (half_vector_to_float_widens _ _ Hvec). cbn [obind].
    apply float_vector_to_half_narrows; [exact Hlhs|].
    rewrite cblas_sgemv_in_place, allocate_buffer_length. lia.
Qed.

(** The call operator whose [lhs] is single precision promotes and
    executes in the same way, and hands the single-precision result over
    as it is. *)
Lemma half_kernel_float_lhs_promotes_executes
    (m n : N) (lhs : list float) (rhs1 rhs2 : list half) (rhs_stride : N)
    (vec_on_lhs : bool) :
  m * n < size_max ->
  (N.to_nat (if vec_on_lhs then m else n)
     <= length (if vec_on_lhs then rhs1 else rhs2))%nat ->
  matrix_in_bounds half m n rhs_stride (if vec_on_lhs then rhs2 else rhs1)
    = true ->
  MatVecMulImplBody_OMP_HALF_float_lhs half float half_to_float
    float_of_int indeterminate cblas_sgemv
    m n lhs rhs1 rhs2 rhs_stride vec_on_lhs
  = Some (if vec_on_lhs then
            MatVecMulImplBody_OMP_FLOAT float float_of_int cblas_sgemv m n lhs
              (widen_vector half float half_to_float rhs1 m)
              (widen_matrix half float half_to_float rhs2 m n rhs_stride)
              n true
          else
            MatVecMulImplBody_OMP_FLOAT float float_of_int cblas_sgemv m n lhs
              (widen_matrix half float half_to_float rhs1 m n rhs_stride)
              (widen_vector half float half_to_float rhs2 n)
              n false).
Proof.
  intros Hmn Hvec Hmat.
  unfold MatVecMulImplBody_OMP_HALF_float_lhs, MatVecMulImplBody_OMP_FLOAT.
  destruct vec_on_lhs.
  - rewrite (half_vector_to_float_widens _ _ Hvec). cbn [obind].
    now rewrite (half_matrix_to_float_widens _ _ _ _ Hmn Hmat).
  - rewrite (half_matrix_to_float_widens _ _ _ _ Hmn Hmat). cbn [obind].
    now rewrite (half_vector_to_float_widens _ _ Hvec).
Qed.

End MatVecMulProperties.

Lemma ref_sgemv_in_place order trans M N alpha a lda x incX beta y incY :
  length (legate_numpy.ref_sgemv order trans M N alpha a lda x incX beta y incY)
  = length y.
Proof.
  unfold legate_numpy.ref_sgemv.
  rewrite length_map, length_combine, length_seq. apply Nat.min_id.
Qed.

Lemma half_kernel_promotes_executes_narrows_witness :
  legate_numpy.MatVecMulImplBody_OMP_HALF Z Z (fun h => h) (fun f => Z.min f 20)
    (fun z => z) 77%Z legate_numpy.ref_sgemv
    2 3 [0; 0; 0; 0]%Z [1; 2; 3; 9; 4; 5; 6; 9]%Z [1; 1; 2]%Z 4 false
  = Some [9; 20; 0; 0]%Z.
Proof.
  rewrite (half_kernel_promotes_executes_narrows Z Z (fun h => h)
             (fun f => Z.min f 20) (fun z => z) 77%Z legate_numpy.ref_sgemv
             ref_sgemv_in_place
             2 3 [0; 0; 0; 0]%Z [1; 2; 3; 9; 4; 5; 6; 9]%Z [1; 1; 2]%Z 4 false).
  - reflexivity.
  - reflexivity.
  - cbn. lia.
  - reflexivity.
  - cbn. lia.
Defined.

(** ** Further properties of broadcast_shapes *)

Lemma nth_error_combine {X Y} (l1 : list X) : forall (l2 : list Y) k x y,
  nth_error (combine l1 l2) k = Some (x, y) ->
  nth_error l1 k = Some x /\ nth_error l2 k = Some y.
Proof.
  induction l1 as [|a l1 IH]; intros [|b l2] [|k] x y H;
    try discriminate; cbn [combine nth_error] in *.
  - inversion H; subst. auto.
  - now apply IH.
Qed.

Lemma compatible_dims_complete x y :
  x = 1 \/ y = 1 \/ x = y -> compatible_dims x y = true.
Proof.
  unfold compatible_dims. intros [ -> | [ -> | -> ] ].
  - reflexivity.
  - now rewrite orb_true_r.
  - now rewrite N.eqb_refl, orb_true_r.
Qed.

Lemma broadcast_compatible_conflict_free arrays :
  broadcast_compatible (map shape arrays) = true <-> conflict_free arrays.
Proof.
  split.
  - intros H a b k x y Ha Hb.
    apply (broadcast_compatible_spec _ H); now apply in_map.
  - intros H. unfold broadcast_compatible, compatible_pair.
    apply forallb_forall. intros s1 H1. apply forallb_forall. intros s2 H2.
    apply forallb_forall. intros [x y] Hxy.
    apply in_map_iff in H1 as [a [E1 Ha]]. apply in_map_iff in H2 as [b [E2 Hb]].
    subst s1 s2.
    apply In_nth_error in Hxy as [k Hk]. apply nth_error_combine in Hk as [Hx Hy].
    apply compatible_dims_complete. exact (H a b k x y Ha Hb Hx Hy).
Qed.

Lemma broadcast_into_no_conflict result s r :
  broadcast_into result s = Some r ->
  forall k x o, dim_at s k = Some x -> dim_at result k = Some o ->
    o = 1 \/ x = 1 \/ o = x.
Proof.
  intros H k x o Hx Ho.
  destruct (N.eq_dec o 1) as [|H1]; [now left|].
  destruct (N.eq_dec x 1) as [|H2]; [now right; left|].
  destruct (N.eq_dec o x) as [|H3]; [now right; right|].
  rewrite (broadcast_into_conflict result s k x o Hx Ho H1 H2 H3) in H.
  discriminate.
Qed.

(** The invariant is kept by every walk that goes through. *)
Lemma resolved_step_returned done result a r :
  resolved done result ->
  broadcast_into result (shape a) = Some r ->
  resolved (done ++ [a]) r.
Proof.
  intros Hinv Hr k d Hd.
  rewrite (broadcast_into_dim_at _ _ _ Hr) in Hd.
  destruct (dim_at (shape a) k) as [x|] eqn:Ex.
  - destruct (dim_at result k) as [o|] eqn:Eo; [|discriminate].
    destruct (Hinv k o Eo) as [Hall Hex].
    pose proof (broadcast_into_no_conflict _ _ _ Hr k x o Ex Eo) as Hnc.
    destruct (N.eqb_spec 1 o) as [E1|E1];
      inversion Hd as [Hd']; clear Hd.
    + subst o. split.
      * intros a' x' Hin Hx'. apply in_app_or in Hin as [Hin|[<-|[]]].
        -- destruct (Hall a' x' Hin Hx'); now left.
        -- right. congruence.
      * right. exists a. split; [apply in_or_app; right; now left|congruence].
    + subst d. split.
      * intros a' x' Hin Hx'. apply in_app_or in Hin as [Hin|[<-|[]]].
        -- exact (Hall a' x' Hin Hx').
        -- assert (x' = x) by congruence. subst x'.
           destruct Hnc as [H|[H|H]]; [congruence|now left|now right].
      * destruct Hex as [Hex|[s [Hs Hso]]]; [now left|].
        right. exists s. split; [apply in_or_app; now left|assumption].
  - destruct (Hinv k d Hd) as [Hall Hex]. split.
    + intros a' x' Hin Hx'. apply in_app_or in Hin as [Hin|[<-|[]]].
      * exact (Hall a' x' Hin Hx').
      * congruence.
    + destruct Hex as [Hex|[s [Hs Hso]]]; [now left|].
      right. exists s. split; [apply in_or_app; now left|assumption].
Qed.

Lemma broadcast_loop_returned rest : forall done result r,
  resolved done result ->
  broadcast_loop rest result = Returned r ->
  length r = length result /\ resolved (done ++ rest) r.
Proof.
  induction rest as [|a rest IH]; intros done result r Hinv H.
  - inversion H; subst. rewrite app_nil_r. auto.
  - cbn [broadcast_loop] in H.
    destruct (broadcast_into result (shape a)) as [r1|] eqn:E; [|discriminate].
    destruct (IH (done ++ [a]) r1 r) as [Hlen Hres]; [|exact H|].
    + eapply resolved_step_returned; eassumption.
    + rewrite <- app_assoc in Hres.
      rewrite Hlen, (broadcast_into_length _ _ _ E). auto.
Qed.

Lemma broadcast_loop_dichotomy arrays : forall result,
  (exists r, broadcast_loop arrays result = Returned r) \/
  broadcast_loop arrays result = Thrown std_exception.
Proof.
  induction arrays as [|a arrays IH]; intros result; cbn [broadcast_loop].
  - left. now exists result.
  - destruct (broadcast_into result (shape a)); [apply IH|now right].
Qed.

Lemma resolved_ones n : resolved [] (repeat 1 n).
Proof.
  intros k d Hd. apply dim_at_ones in Hd. split; [intros ? ? []|now left].
Qed.

Lemma broadcast_shapes_returned cfg arrays r :
  broadcast_shapes cfg arrays = Returned r ->
  length r = max_rank arrays /\ resolved arrays r.
Proof.
  unfold broadcast_shapes.
  destruct (DEBUG_CUNUMERIC cfg && negb (NDEBUG cfg) &&
            match arrays with [] => true | _ :: _ => false end);
    [discriminate|].
  intros H.
  destruct (broadcast_loop_returned arrays [] _ r (resolved_ones _) H)
    as [Hlen Hres].
  rewrite repeat_length, max_dim_max_rank, Nat2Z.id in Hlen. auto.
Qed.

Lemma dim_at_some s k : (k < length s)%nat -> exists d, dim_at s k = Some d.
Proof.
  intros H. unfold dim_at.
  destruct (nth_error (rev s) k) eqn:E; [eauto|].
  apply nth_error_None in E. rewrite length_rev in E. lia.
Qed.

Lemma resolved_conflict_free arrays r :
  length r = max_rank arrays -> resolved arrays r -> conflict_free arrays.
Proof.
  intros Hlen Hres a b k x y Ha Hb Hx Hy.
  assert (Hk : (k < length r)%nat).
  { apply dim_at_lt in Hx. pose proof (rank_le_max_rank _ _ Ha). lia. }
  destruct (dim_at_some r k Hk) as [d Hd].
  destruct (Hres k d Hd) as [Hall _].
  destruct (Hall a x Ha Hx), (Hall b y Hb Hy); subst; auto.
Qed.

(** The invariant determines the shape. *)
Lemma resolved_unique arrays r r' :
  resolved arrays r -> resolved arrays r' -> length r = length r' -> r = r'.
Proof.
  intros H H' Hlen. apply rev_inj. apply nth_error_ext. intros k.
  fold (dim_at r k). fold (dim_at r' k).
  destruct (dim_at r k) as [d|] eqn:E; destruct (dim_at r' k) as [d'|] eqn:E'.
  - f_equal. destruct (H k d E) as [Hall Hex], (H' k d' E') as [Hall' Hex'].
    destruct Hex as [->|[a [Ha Hda]]].
    + destruct Hex' as [->|[a' [Ha' Hda']]]; [reflexivity|].
      destruct (Hall a' d' Ha' Hda'); congruence.
    + destruct (Hall' a d Ha Hda) as [->|]; [|assumption].
      destruct Hex' as [->|[a' [Ha' Hda']]]; [reflexivity|].
      destruct (Hall a' d' Ha' Hda'); congruence.
  - apply dim_at_lt in E. unfold dim_at in E'. apply nth_error_None in E'.
    rewrite length_rev in E'. lia.
  - apply dim_at_lt in E'. unfold dim_at in E. apply nth_error_None in E.
    rewrite length_rev in E. lia.
  - reflexivity.
Qed.

Lemma broadcast_shapes_complete cfg arrays r :
  arrays <> [] ->
  length r = max_rank arrays -> resolved arrays r ->
  broadcast_shapes cfg arrays = Returned r.
Proof.
  intros Hne Hlen Hres.
  destruct arrays as [|a arrays]; [congruence|].
  rewrite broadcast_shapes_nonempty.
  pose proof (resolved_conflict_free _ _ Hlen Hres) as Hcf.
  destruct (broadcast_loop_resolves (a :: arrays) []
              (repeat 1 (Z.to_nat (max_dim (a :: arrays)))))
    as [r' [Hr' [Hlen' Hres']]].
  - intros s1 s2 k x y I1 I2. exact (Hcf s1 s2 k x y I1 I2).
  - apply resolved_ones.
  - rewrite Hr'. f_equal. apply (resolved_unique (a :: arrays)); auto.
    rewrite Hlen', repeat_length, max_dim_max_rank, Nat2Z.id. now symmetry.
Qed.

Lemma broadcast_shapes_dichotomy cfg arrays :
  arrays <> [] ->
  (exists r, broadcast_shapes cfg arrays = Returned r) \/
  broadcast_shapes cfg arrays = Thrown std_exception.
Proof.
  destruct arrays as [|a arrays]; [congruence|]. intros _.
  rewrite broadcast_shapes_nonempty. apply broadcast_loop_dichotomy.
Qed.

(** X1.  A list of shapes that is not pairwise compatible makes
    [broadcast_shapes] throw the bare [std::exception], whatever the number
    of arrays and wherever the conflicting pair stands in the list. *)
Theorem broadcast_shapes_incompatible_throws cfg arrays :
  broadcast_compatible (map shape arrays) = false ->
  broadcast_shapes cfg arrays = Thrown std_exception.
Proof.
  intros H.
  assert (Hne : arrays <> []) by (intros ->; discriminate).
  destruct (broadcast_shapes_dichotomy cfg arrays Hne) as [[r Hr]|Ht];
    [|exact Ht].
  apply broadcast_shapes_returned in Hr as [Hlen Hres].
  apply resolved_conflict_free in Hres; [|exact Hlen].
  apply broadcast_compatible_conflict_free in Hres. congruence.
Qed.

Lemma broadcast_shapes_incompatible_throws_witness :
  broadcast_shapes debug_build
    [f64_array [5; 1]; f64_array [3]; f64_array [2; 1; 4]] = Thrown std_exception.
Proof.
  apply (broadcast_shapes_incompatible_throws debug_build
           [f64_array [5; 1]; f64_array [3]; f64_array [2; 1; 4]]).
  reflexivity.
Defined.

(** X2.  For a non-empty list, [broadcast_shapes] returns [r] exactly when
    [r] has the maximum rank of the inputs and, at every trailing-aligned
    position, every input has 1 or the extent of [r], which is 1 unless some
    input carries it. *)
Theorem broadcast_shapes_returns_iff cfg arrays r :
  arrays <> [] ->
  (broadcast_shapes cfg arrays = Returned r <->
   length r = max_rank arrays /\ resolved arrays r).
Proof.
  intros Hne. split.
  - apply broadcast_shapes_returned.
  - intros [Hlen Hres]. now apply broadcast_shapes_complete.
Qed.

Lemma broadcast_shapes_returns_iff_witness :
  length [7; 1; 5] = max_rank [f64_array [1; 5]; f64_array [7; 1; 1]] /\
  resolved [f64_array [1; 5]; f64_array [7; 1; 1]] [7; 1; 5].
Proof.
  apply (broadcast_shapes_returns_iff release_build
           [f64_array [1; 5]; f64_array [7; 1; 1]] [7; 1; 5]).
  - discriminate.
  - reflexivity.
Defined.

(** *** Operand order *)

Lemma list_max_Permutation l l' : Permutation l l' -> list_max l = list_max l'.
Proof.
  induction 1 as [|x l l' _ IH|x y l|l l' l'' _ IH1 _ IH2]; simpl.
  - reflexivity.
  - now rewrite IH.
  - lia.
  - congruence.
Qed.

Lemma max_rank_Permutation arrays arrays' :
  Permutation arrays arrays' -> max_rank arrays = max_rank arrays'.
Proof.
  intros H. unfold max_rank. apply list_max_Permutation.
  now apply Permutation_map.
Qed.

Lemma resolved_Permutation arrays arrays' r :
  Permutation arrays arrays' -> resolved arrays r -> resolved arrays' r.
Proof.
  intros HP H k d Hd. destruct (H k d Hd) as [Hall Hex]. split.
  - intros a x Ha. apply Hall. eapply Permutation_in; [|exact Ha].
    now apply Permutation_sym.
  - destruct Hex as [?|[a [Ha Hda]]]; [now left|].
    right. exists a. split; [eapply Permutation_in; eassumption|assumption].
Qed.

Lemma broadcast_shapes_returned_Permutation cfg arrays arrays' r :
  Permutation arrays arrays' -> arrays <> [] ->
  broadcast_shapes cfg arrays = Returned r ->
  broadcast_shapes cfg arrays' = Returned r.
Proof.
  intros HP Hne Hr.
  apply broadcast_shapes_returned in Hr as [Hlen Hres].
  apply broadcast_shapes_complete.
  - intros ->. apply Permutation_sym, Permutation_nil in HP. congruence.
  - now rewrite <- (max_rank_Permutation _ _ HP).
  - eapply resolved_Permutation; eassumption.
Qed.

(** X3.  The outcome of [broadcast_shapes] does not depend on the order of
    the arrays: a reordered list resolves to the same shape, or fails in the
    same way. *)
Theorem broadcast_shapes_order_irrelevant cfg arrays arrays' :
  Permutation arrays arrays' ->
  broadcast_shapes cfg arrays = broadcast_shapes cfg arrays'.
Proof.
  intros HP.
  destruct arrays as [|a arrays].
  { apply Permutation_nil in HP. now subst. }
  assert (Hne : a :: arrays <> []) by discriminate.
  assert (Hne' : arrays' <> []).
  { intros ->. apply Permutation_sym, Permutation_nil in HP. congruence. }
  destruct (broadcast_shapes_dichotomy cfg _ Hne) as [[r Hr]|Ht].
  - rewrite Hr. symmetry.
    eapply broadcast_shapes_returned_Permutation; eassumption.
  - destruct (broadcast_shapes_dichotomy cfg _ Hne') as [[r' Hr']|Ht'].
    + apply (broadcast_shapes_returned_Permutation cfg arrays' (a :: arrays))
        in Hr'; [congruence|now apply Permutation_sym|exact Hne'].
    + congruence.
Qed.

Lemma broadcast_shapes_order_irrelevant_witness :
  broadcast_shapes release_build [f64_array [4; 1]; f64_array [6]; f64_array []]
  = broadcast_shapes release_build [f64_array [6]; f64_array []; f64_array [4; 1]].
Proof.
  apply (broadcast_shapes_order_irrelevant release_build
           [f64_array [4; 1]; f64_array [6]; f64_array []]
           [f64_array [6]; f64_array []; f64_array [4; 1]]).
  apply Permutation_cons_app with (l1 := [f64_array [6]; f64_array []])
                                  (l2 := []).
  rewrite app_nil_r. apply Permutation_refl.
Defined.

(** *** Resolving in stages *)

Lemma max_rank_app l1 l2 :
  max_rank (l1 ++ l2) = Nat.max (max_rank l1) (max_rank l2).
Proof. unfold max_rank. now rewrite map_app, list_max_app. Qed.

Lemma resolved_staged l1 l2 r1 t r :
  length r1 = max_rank l1 -> resolved l1 r1 ->
  (resolved (mkNDArray r1 t :: l2) r <-> resolved (l1 ++ l2) r).
Proof.
  intros Hlen1 Hres1. split; intros H k d Hd; destruct (H k d Hd) as [Hall Hex].
  - split.
    + intros a x Ha Hx. apply in_app_or in Ha as [Ha|Ha].
      * assert (Hk : (k < length r1)%nat).
        { apply dim_at_lt in Hx. pose proof (rank_le_max_rank _ _ Ha). lia. }
        destruct (dim_at_some r1 k Hk) as [o Ho].
        destruct (Hres1 k o Ho) as [Hall1 _].
        destruct (Hall1 a x Ha Hx) as [?|Hxo]; [now left|].
        destruct (Hall (mkNDArray r1 t) o (or_introl eq_refl) Ho); subst; auto.
      * apply (Hall a x); [now right|assumption].
    + destruct Hex as [?|[a [[<-|Ha] Hda]]]; [now left| |].
      * cbn [shape] in Hda. destruct (Hres1 k d Hda) as [_ [?|[a [Ha Hd1]]]];
          [now left|].
        right. exists a. split; [apply in_or_app; now left|assumption].
      * right. exists a. split; [apply in_or_app; now right|assumption].
  - split.
    + intros a x [<-|Ha] Hx.
      * cbn [shape] in Hx. destruct (Hres1 k x Hx) as [_ [?|[a [Ha Hd1]]]];
          [now left|].
        apply (Hall a x); [apply in_or_app; now left|assumption].
      * apply (Hall a x); [apply in_or_app; now right|assumption].
    + destruct Hex as [?|[a [Ha Hda]]]; [now left|].
      apply in_app_or in Ha as [Ha|Ha].
      * assert (Hk : (k < length r1)%nat).
        { apply dim_at_lt in Hda. pose proof (rank_le_max_rank _ _ Ha). lia. }
        destruct (dim_at_some r1 k Hk) as [o Ho].
        destruct (Hres1 k o Ho) as [Hall1 _].
        destruct (Hall1 a d Ha Hda) as [?|Hxo]; [now left|].
        right. exists (mkNDArray r1 t). split; [now left|]. cbn [shape].
        congruence.
      * right. exists a. split; [now right|assumption].
Qed.

Lemma broadcast_shapes_staged cfg l1 l2 r1 t :
  l1 <> [] ->
  broadcast_shapes cfg l1 = Returned r1 ->
  broadcast_shapes cfg (mkNDArray r1 t :: l2) = broadcast_shapes cfg (l1 ++ l2).
Proof.
  intros Hne Hr1.
  apply broadcast_shapes_returned in Hr1 as [Hlen1 Hres1].
  assert (Hmax : max_rank (mkNDArray r1 t :: l2) = max_rank (l1 ++ l2)).
  { rewrite max_rank_app, <- Hlen1. reflexivity. }
  assert (HneB : mkNDArray r1 t :: l2 <> []) by discriminate.
  assert (HneC : l1 ++ l2 <> []) by (destruct l1; [congruence|discriminate]).
  destruct (broadcast_shapes_dichotomy cfg _ HneB) as [[r Hr]|Ht].
  - rewrite Hr. symmetry.
    apply broadcast_shapes_returned in Hr as [Hlen Hres].
    apply broadcast_shapes_complete; [exact HneC|congruence|].
    now apply (resolved_staged l1 l2 r1 t r).
  - destruct (broadcast_shapes_dichotomy cfg _ HneC) as [[r Hr]|Ht'];
      [|congruence].
    apply broadcast_shapes_returned in Hr as [Hlen Hres].
    assert (broadcast_shapes cfg (mkNDArray r1 t :: l2) = Returned r);
      [|congruence].
    apply broadcast_shapes_complete; [exact HneB|congruence|].
    now apply (resolved_staged l1 l2 r1 t r).
Qed.

(** X4.  Resolving in stages gives the same outcome as resolving at once:
    when a non-empty list resolves to [r1], an array of shape [r1] followed
    by further arrays resolves, or fails, as the whole list followed by
    them. *)
Theorem broadcast_shapes_in_stages cfg l1 l2 r1 t :
  l1 <> [] ->
  broadcast_shapes cfg l1 = Returned r1 ->
  broadcast_shapes cfg (mkNDArray r1 t :: l2) = broadcast_shapes cfg (l1 ++ l2).
Proof.
  intros Hne Hr1.
  apply broadcast_shapes_returned in Hr1 as [Hlen1 Hres1].
  assert (Hmax : max_rank (mkNDArray r1 t :: l2) = max_rank (l1 ++ l2)).
  { rewrite max_rank_app, <- Hlen1. reflexivity. }
  assert (Hiff : forall r,
             broadcast_shapes cfg (mkNDArray r1 t :: l2) = Returned r <->
             broadcast_shapes cfg (l1 ++ l2) = Returned r).
  { intros r. split; intros Hr;
      apply broadcast_shapes_returned in Hr as [Hlen Hres];
      apply broadcast_shapes_complete;
      try discriminate; try congruence;
      try (destruct l1; [congruence|discriminate]);
      now apply (resolved_staged l1 l2 r1 t r). }
  destruct (broadcast_shapes_dichotomy cfg (mkNDArray r1 t :: l2))
    as [[r Hr]|Ht]; [discriminate| |].
  - rewrite Hr. symmetry. now apply Hiff.
  - destruct (broadcast_shapes_dichotomy cfg (l1 ++ l2)) as [[r Hr]|Ht'].
    + destruct l1; [congruence|discriminate].
    + apply Hiff in Hr. congruence.
    + congruence.
Qed.

Lemma broadcast_shapes_in_stages_witness :
  broadcast_shapes release_build [f32_array [2; 3]; f64_array [5; 1; 1]]
  = broadcast_shapes release_build
      [f64_array [2; 1]; f64_array [3]; f64_array [5; 1; 1]].
Proof.
  apply (broadcast_shapes_in_stages release_build
           [f64_array [2; 1]; f64_array [3]] [f64_array [5; 1; 1]]
           [2; 3] legate.float32).
  - discriminate.
  - reflexivity.
Defined.

(** *** An operand that already has the resolved shape *)

Lemma stretches_to_spec sb sa :
  stretches_to sb sa = true ->
  (length sb <= length sa)%nat /\
  forall k y, dim_at sb k = Some y -> y = 1 \/ dim_at sa k = Some y.
Proof.
  unfold stretches_to. intros H. apply andb_prop in H as [Hlen Hall].
  apply Nat.leb_le in Hlen. split; [exact Hlen|].
  intros k y Hy.
  destruct (dim_at_some sa k) as [x Hx].
  { apply dim_at_lt in Hy. lia. }
  rewrite forallb_forall in Hall.
  specialize (Hall (y, x) (nth_error_combine_In _ _ k y x Hy Hx)).
  cbn [fst snd] in Hall. apply orb_prop in Hall as [E|E];
    apply N.eqb_eq in E; [now left|right; congruence].
Qed.

(** X5.  When every array of the list stretches to the shape of one of
    them, [broadcast_shapes] returns the shape of that array. *)
Theorem broadcast_shapes_to_widest cfg arrays a :
  In a arrays ->
  forallb (fun b => stretches_to (shape b) (shape a)) arrays = true ->
  broadcast_shapes cfg arrays = Returned (shape a).
Proof.
  intros Ha H. rewrite forallb_forall in H.
  apply broadcast_shapes_complete.
  - intros ->. destruct Ha.
  - apply Nat.le_antisymm; [now apply rank_le_max_rank|].
    unfold max_rank. apply list_max_le, Forall_forall. intros n Hn.
    apply in_map_iff in Hn as [b [Hb Hin]]. subst n.
    now apply stretches_to_spec, H.
  - intros k d Hd. split.
    + intros b y Hb Hy.
      destruct (stretches_to_spec _ _ (H b Hb)) as [_ Hs].
      destruct (Hs k y Hy); [now left|right; congruence].
    + right. now exists a.
Qed.

Lemma broadcast_shapes_to_widest_witness :
  broadcast_shapes release_build
    [f64_array []; f64_array [1; 3]; f64_array [2; 4; 3]; f64_array [4; 1]]
  = Returned [2; 4; 3].
Proof.
  apply (broadcast_shapes_to_widest release_build
           [f64_array []; f64_array [1; 3]; f64_array [2; 4; 3]; f64_array [4; 1]]
           (f64_array [2; 4; 3])).
  - right. right. now left.
  - reflexivity.
Defined.

(** ** Further properties of the facade *)

Lemma binary_op_unfold cfg op_code rhs1 rhs2 :
  binary_op cfg op_code rhs1 rhs2 None =
  match broadcast_shapes cfg [rhs1; rhs2] with
  | Returned r =>
      ([ev_create_array r (type rhs1);
        ev_submit (mkNDArray r (type rhs1)) (op_binary_op op_code rhs1 rhs2)],
       Returned (mkNDArray r (type rhs1)))
  | Thrown e => ([], Thrown e)
  | Aborted => ([], Aborted)
  end.
Proof.
  unfold binary_op, lift.
  now destruct (broadcast_shapes cfg [rhs1; rhs2]).
Qed.

Lemma trilu_unfold rhs k lower :
  trilu rhs k lower =
  match shape rhs with
  | [] => ([], Thrown (std_invalid_argument "Dim of input array must be > 0"))
  | [n] =>
      ([ev_create_array [n; n] (type rhs);
        ev_submit (mkNDArray [n; n] (type rhs)) (op_trilu rhs k lower)],
       Returned (mkNDArray [n; n] (type rhs)))
  | _ :: _ :: _ =>
      ([ev_create_array (shape rhs) (type rhs);
        ev_submit (mkNDArray (shape rhs) (type rhs)) (op_trilu rhs k lower)],
       Returned (mkNDArray (shape rhs) (type rhs)))
  end.
Proof.
  destruct rhs as [[|n [|n' s]] ty]; try reflexivity.
  unfold trilu, dim. cbn [shape type length].
  destruct (Z.eqb_spec (Z.of_nat (S (S (length s)))) 0); [lia|].
  destruct (Z.eqb_spec (Z.of_nat (S (S (length s)))) 1); [lia|].
  reflexivity.
Qed.

Lemma dim_2_shape a : dim a = 2%Z -> exists x y, shape a = [x; y].
Proof.
  unfold dim. destruct (shape a) as [|x [|y [|z s]]]; cbn [length]; try lia.
  intros _. now exists x, y.
Qed.

Lemma dot_unfold rhs1 rhs2 :
  dot rhs1 rhs2 =
  match shape rhs1, shape rhs2 with
  | [a; b], [c; d] =>
      if b =? c then
        ([ev_create_array [a; d] (type rhs1);
          ev_submit (mkNDArray [a; d] (type rhs1)) (op_dot rhs1 rhs2)],
         Returned (mkNDArray [a; d] (type rhs1)))
      else
        ([ev_fprintf_stderr ("Incompatible matrices: (%zd, %zd) x (%zd, %zd)" ++ LF)%string
            [a; b; c; d]], Aborted)
  | _, _ =>
      ([ev_fprintf_stderr "cunumeric::dot only supports matrices now" []],
       Aborted)
  end.
Proof.
  unfold dot.
  destruct (Z.eqb_spec (dim rhs1) 2) as [E1|E1].
  - destruct (dim_2_shape _ E1) as [a [b Ha]]. rewrite Ha.
    destruct (Z.eqb_spec (dim rhs2) 2) as [E2|E2].
    + destruct (dim_2_shape _ E2) as [c [d Hc]]. rewrite Hc.
      cbn [negb orb nth]. now destruct (b =? c).
    + cbn [negb orb]. unfold dim in E2.
      destruct (shape rhs2) as [|c [|d [|z s]]]; try reflexivity.
      now elim E2.
  - cbn [negb orb]. unfold dim in E1.
    destruct (shape rhs1) as [|a [|b [|z s]]]; try reflexivity.
    now elim E1.
Qed.

Lemma zeros_unfold s ty :
  zeros s ty =
  let T := match ty with None => legate.float64 | Some t => t end in
  match legate.size_of (legate.code T) with
  | Some _ =>
      ([ev_create_array s T;
        ev_submit (mkNDArray s T) (op_fill (legate.mkScalar T 0) false)],
       Returned (mkNDArray s T))
  | None => ([], Thrown (std_invalid_argument "Type must be a primitive type"))
  end.
Proof. destruct ty as [[c]|]; [destruct c|]; reflexivity. Qed.

(** X6.  Every out-of-place entry point of the facade is all or nothing.
    When it returns, it has submitted exactly one operation, whose output
    handle is the array returned: the caller's handle and nothing created
    when one was passed in, else the one array it created, of the shape and
    type returned.  When it fails, it has created no array and submitted
    nothing. *)
Theorem facade_all_or_nothing cfg c :
  match run_call cfg c with
  | (tr, Returned out) =>
      match explicit_out c with
      | Some o => out = o /\ exists op, tr = [ev_submit out op]
      | None =>
          exists op,
            tr = [ev_create_array (shape out) (type out); ev_submit out op]
      end
  | (tr, Thrown _) | (tr, Aborted) => forall e, In e tr -> is_diagnostic e
  end.
Proof.
  destruct c as [i|i|i|a b o|a b o|sh|sh ty|sh v|r k|r k|a b];
    cbn [run_call explicit_out].
  - eexists; reflexivity.
  - eexists; reflexivity.
  - eexists; reflexivity.
  - destruct o as [o|]; [split; [reflexivity|eexists; reflexivity]|].
    unfold add. rewrite binary_op_unfold.
    destruct (broadcast_shapes cfg [a; b]);
      [eexists; reflexivity|intros ? []|intros ? []].
  - destruct o as [o|]; [split; [reflexivity|eexists; reflexivity]|].
    unfold multiply. rewrite binary_op_unfold.
    destruct (broadcast_shapes cfg [a; b]);
      [eexists; reflexivity|intros ? []|intros ? []].
  - eexists; reflexivity.
  - rewrite zeros_unfold. cbv zeta.
    destruct (legate.size_of _); [eexists; reflexivity|intros ? []].
  - eexists; reflexivity.
  - unfold tril. rewrite trilu_unfold.
    destruct (shape r) as [|n [|n' s]];
      [intros ? []|eexists; reflexivity|eexists; reflexivity].
  - unfold triu. rewrite trilu_unfold.
    destruct (shape r) as [|n [|n' s]];
      [intros ? []|eexists; reflexivity|eexists; reflexivity].
  - rewrite dot_unfold.
    destruct (shape a) as [|x [|y [|z s]]];
      try (intros e [<-|[]]; exact I).
    destruct (shape b) as [|x' [|y' [|z' s']]];
      try (intros e [<-|[]]; exact I).
    destruct (y =? x'); [eexists; reflexivity|intros e [<-|[]]; exact I].
Qed.

(** X7.  [zeros] accepts exactly the element types with a fixed byte size:
    for such a type (64-bit float when none is given) it returns an array of
    the requested shape and type, filled with the zero of that type; for any
    other type it throws [std::invalid_argument] before anything is
    created.  It never reaches a dispatch without specialization. *)
Theorem zeros_accepts_exactly_primitive s ty :
  let T := match ty with None => legate.float64 | Some t => t end in
  zeros s ty =
  match legate.size_of (legate.code T) with
  | Some _ =>
      ([ev_create_array s T;
        ev_submit (mkNDArray s T) (op_fill (legate.mkScalar T 0) false)],
       Returned (mkNDArray s T))
  | None => ([], Thrown (std_invalid_argument "Type must be a primitive type"))
  end.
Proof.
  destruct ty as [[c]|]; cbv zeta.
  - unfold zeros, not_primitive, type_dispatch.
    destruct c; reflexivity.
  - reflexivity.
Qed.

(** X8.  Whenever [dot] returns, its operands are an (a, b) and a (b, d)
    matrix and the array returned has shape (a, d) and the element type of
    the first operand. *)
Theorem dot_returns_product_shape rhs1 rhs2 tr out :
  dot rhs1 rhs2 = (tr, Returned out) ->
  exists a b d,
    shape rhs1 = [a; b] /\ shape rhs2 = [b; d] /\
    shape out = [a; d] /\ type out = type rhs1.
Proof.
  rewrite dot_unfold.
  destruct (shape rhs1) as [|a [|b [|z s]]]; try discriminate.
  destruct (shape rhs2) as [|c [|d [|z' s']]]; try discriminate.
  destruct (N.eqb_spec b c); [|discriminate].
  intros H; inversion H; subst. exists a, c, d. auto.
Qed.

Lemma dot_returns_product_shape_witness :
  exists a b d,
    shape (f32_array [4; 5]) = [a; b] /\ shape (f64_array [5; 7]) = [b; d] /\
    shape (f32_array [4; 7]) = [a; d] /\
    type (f32_array [4; 7]) = type (f32_array [4; 5]).
Proof.
  apply (dot_returns_product_shape (f32_array [4; 5]) (f64_array [5; 7])
           [ev_create_array [4; 7] legate.float32;
            ev_submit (f32_array [4; 7])
              (op_dot (f32_array [4; 5]) (f64_array [5; 7]))]
           (f32_array [4; 7])).
  reflexivity.
Defined.

(** X9.  The array a triangular extraction returns has rank at least 2 and
    the element type of the input, and a further extraction from it
    succeeds and keeps its shape and type. *)
Theorem trilu_result_is_stable rhs k lower k' lower' tr out :
  trilu rhs k lower = (tr, Returned out) ->
  (2 <= length (shape out))%nat /\ type out = type rhs /\
  exists tr', trilu out k' lower' = (tr', Returned out).
Proof.
  rewrite trilu_unfold.
  destruct (shape rhs) as [|n [|n' s]] eqn:E; [discriminate| |];
    intros H; inversion H; subst; cbn [shape type length];
    (split; [lia|]); (split; [reflexivity|]);
    rewrite trilu_unfold; cbn [shape type]; eexists; reflexivity.
Qed.

Lemma trilu_result_is_stable_witness :
  (2 <= length (shape (f64_array [3; 3]%N)))%nat /\
  type (f64_array [3; 3]) = type (f64_array [3]) /\
  exists tr', trilu (f64_array [3; 3]) 1 false = (tr', Returned (f64_array [3; 3])).
Proof.
  apply (trilu_result_is_stable (f64_array [3]) 0 true 1 false
           [ev_create_array [3; 3] legate.float64;
            ev_submit (f64_array [3; 3]) (op_trilu (f64_array [3]) 0 true)]
           (f64_array [3; 3])).
  reflexivity.
Defined.

(** X10.  Swapping the operands of a binary operation that returns gives an
    operation that returns an array of the same shape; its element type is
    that of the operand now first. *)
Theorem binary_op_swapped cfg op_code op_code' rhs1 rhs2 tr out :
  binary_op cfg op_code rhs1 rhs2 None = (tr, Returned out) ->
  exists tr' out',
    binary_op cfg op_code' rhs2 rhs1 None = (tr', Returned out') /\
    shape out' = shape out /\ type out' = type rhs2.
Proof.
  rewrite !binary_op_unfold.
  destruct (broadcast_shapes cfg [rhs1; rhs2]) as [r| |] eqn:E;
    try discriminate.
  intros H; inversion H; subst.
  rewrite (broadcast_shapes_returned_Permutation cfg [rhs1; rhs2] [rhs2; rhs1] r
             (perm_swap _ _ _) ltac:(discriminate) E).
  do 2 eexists. split; [reflexivity|]. split; reflexivity.
Qed.

Lemma binary_op_swapped_witness :
  exists tr' out',
    binary_op release_build MULTIPLY (f64_array [3]) (f32_array [2; 1]) None
      = (tr', Returned out') /\
    shape out' = shape (f32_array [2; 3]) /\ type out' = type (f64_array [3]).
Proof.
  apply (binary_op_swapped release_build ADD MULTIPLY
           (f32_array [2; 1]) (f64_array [3])
           [ev_create_array [2; 3] legate.float32;
            ev_submit (f32_array [2; 3])
              (op_binary_op ADD (f32_array [2; 1]) (f64_array [3]))]
           (f32_array [2; 3])).
  reflexivity.
Defined.

(** X11.  Chaining two binary operations resolves the three shapes at once:
    when the first returns [ab], the second applied to [ab] and a third
    array returns an array of the shape [broadcast_shapes] gives the three
    arrays and of the first array's type, and fails when that fails. *)
Theorem binary_op_chain cfg op1 op2 a b c tr ab :
  binary_op cfg op1 a b None = (tr, Returned ab) ->
  snd (binary_op cfg op2 ab c None) =
  match broadcast_shapes cfg [a; b; c] with
  | Returned r => Returned (mkNDArray r (type a))
  | Thrown e => Thrown e
  | Aborted => Aborted
  end.
Proof.
  rewrite !binary_op_unfold.
  destruct (broadcast_shapes cfg [a; b]) as [r1| |] eqn:E; try discriminate.
  intros H; inversion H; subst.
  rewrite (broadcast_shapes_staged cfg [a; b] [c] r1 (type a)
             ltac:(discriminate) E).
  cbn [app type]. now destruct (broadcast_shapes cfg [a; b; c]).
Qed.

Lemma binary_op_chain_witness :
  snd (binary_op release_build MULTIPLY (f32_array [2; 3]) (f64_array [5; 1; 1])
         None)
  = Returned (f32_array [5; 2; 3]).
Proof.
  rewrite (binary_op_chain release_build ADD MULTIPLY
             (f32_array [2; 1]) (f64_array [3]) (f64_array [5; 1; 1])
             [ev_create_array [2; 3] legate.float32;
              ev_submit (f32_array [2; 3])
                (op_binary_op ADD (f32_array [2; 1]) (f64_array [3]))]
             (f32_array [2; 3])).
  - reflexivity.
  - reflexivity.
Defined.

(** ** Further properties of the Cholesky kernels *)

Section PotrfFurther.

Import potrf.

Variables float double complex_float complex_double : Type.
Variable LAPACK_spotrf : ascii -> Z -> list float -> Z -> list float * Z.
Variable LAPACK_dpotrf : ascii -> Z -> list double -> Z -> list double * Z.
Variable LAPACK_cpotrf :
  ascii -> Z -> list complex_float -> Z -> list complex_float * Z.
Variable LAPACK_zpotrf :
  ascii -> Z -> list complex_double -> Z -> list complex_double * Z.

Local Abbreviation Store := (Store float double complex_float complex_double).
Local Abbreviation info :=
  (lapack_info float double complex_float complex_double
     LAPACK_spotrf LAPACK_dpotrf LAPACK_cpotrf LAPACK_zpotrf).
Local Abbreviation left_by_lapack :=
  (lapack_store float double complex_float complex_double
     LAPACK_spotrf LAPACK_dpotrf LAPACK_cpotrf LAPACK_zpotrf).
Local Abbreviation body :=
  (PotrfImplBody_CPU float double complex_float complex_double
     LAPACK_spotrf LAPACK_dpotrf LAPACK_cpotrf LAPACK_zpotrf).
Local Abbreviation variant :=
  (cpu_variant float double complex_float complex_double
     LAPACK_spotrf LAPACK_dpotrf LAPACK_cpotrf LAPACK_zpotrf).

(** X12.  The kernel body works in place and undoes nothing: the store holds
    what the external routine left in it whether the body returns or throws,
    and the body returns exactly when the routine reports status zero. *)
Theorem potrf_in_place (s : Store) st :
  snd (fst (body s st)) = left_by_lapack s /\
  (snd (body s st) = Returned tt <-> info s = 0%Z).
Proof.
  destruct s as [a m n|a m n|a m n|a m n];
    cbn [PotrfImplBody_CPU lapack_info lapack_store];
    unfold PotrfImplBody_CPU_FLOAT32, PotrfImplBody_CPU_FLOAT64,
           PotrfImplBody_CPU_COMPLEX64, PotrfImplBody_CPU_COMPLEX128.
  - destruct (LAPACK_spotrf "L" n a m) as [a' i]; cbn [fst snd].
    destruct (Z.eqb_spec i 0); cbn [negb fst snd];
      (split; [reflexivity|split; congruence]).
  - destruct (LAPACK_dpotrf "L" n a m) as [a' i]; cbn [fst snd].
    destruct (Z.eqb_spec i 0); cbn [negb fst snd];
      (split; [reflexivity|split; congruence]).
  - destruct (LAPACK_cpotrf "L" n a m) as [a' i]; cbn [fst snd].
    destruct (Z.eqb_spec i 0); cbn [negb fst snd];
      (split; [reflexivity|split; congruence]).
  - destruct (LAPACK_zpotrf "L" n a m) as [a' i]; cbn [fst snd].
    destruct (Z.eqb_spec i 0); cbn [negb fst snd];
      (split; [reflexivity|split; congruence]).
Qed.

(** X13.  The CPU variant leaves the thread count of the external library
    at one in a build with OpenMP, whatever it was before, and never sets it
    back; in a build without OpenMP it does not touch the count, and the
    LAPACK routine runs under the count it finds. *)
Theorem cpu_variant_thread_count cfg (context : Store) st :
  let threads := if LEGATE_USE_OPENMP cfg then 1%Z else num_threads st in
  exists routine,
    fst (fst (variant cfg context st)) =
    mkBlas threads
      (trace st ++
       (if LEGATE_USE_OPENMP cfg then [ev_set_num_threads 1] else []) ++
       [ev_lapack routine threads]).
Proof.
  unfold cpu_variant, potrf_template_CPU.
  destruct (LEGATE_USE_OPENMP cfg); cbv zeta.
  - destruct (PotrfImplBody_CPU_trace float double complex_float complex_double
                LAPACK_spotrf LAPACK_dpotrf LAPACK_cpotrf LAPACK_zpotrf
                context (openblas_set_num_threads 1 st)) as [routine E].
    exists routine. rewrite E.
    cbn [trace num_threads openblas_set_num_threads].
    now rewrite <- app_assoc.
  - destruct (PotrfImplBody_CPU_trace float double complex_float complex_double
                LAPACK_spotrf LAPACK_dpotrf LAPACK_cpotrf LAPACK_zpotrf
                context st) as [routine E].
    exists routine. rewrite E. reflexivity.
Qed.

End PotrfFurther.

(** ** Further properties of the matrix-vector kernels *)

Section FlatRows.

Context {T : Type} (f : nat -> list T) (n : nat).

Lemma flat_map_rows_length m : forall s,
  (forall j, (s <= j < s + m)%nat -> length (f j) = n) ->
  length (flat_map f (seq s m)) = (m * n)%nat.
Proof.
  induction m as [|m IH]; intros s H; [reflexivity|].
  cbn [seq flat_map].
  rewrite length_app, H, IH by (try (intros; apply H); lia).
  lia.
Qed.

(** Row [i] of a dense layout of rows of [n] cells. *)
Lemma flat_map_rows_nth m : forall s i,
  (forall j, (s <= j < s + m)%nat -> length (f j) = n) ->
  (i < m)%nat ->
  firstn n (skipn (i * n) (flat_map f (seq s m))) = f (s + i)%nat.
Proof.
  induction m as [|m IH]; intros s i H Hi; [lia|].
  cbn [seq flat_map].
  assert (Hs : length (f s) = n) by (apply H; lia).
  destruct i as [|i].
  - cbn [Nat.mul skipn]. rewrite firstn_app, Hs, Nat.sub_diag, Nat.add_0_r.
    cbn [firstn]. rewrite app_nil_r. apply firstn_all2. lia.
  - rewrite skipn_app, Hs, skipn_all2 by lia. cbn [app].
    replace (S i * n - n)%nat with (i * n)%nat by lia.
    rewrite IH by (try (intros; apply H); lia).
    f_equal. lia.
Qed.

End FlatRows.

Section MatVecMulFurther.

Import legate_numpy.

Variables half float : Type.
Variable half_to_float : half -> float.
Variable float_to_half : float -> half.
Variable float_of_int : Z -> float.
Variable indeterminate : float.
Variable cblas_sgemv :
  CBLAS_ORDER -> CBLAS_TRANSPOSE -> Z -> Z -> float ->
  list float -> Z -> list float -> Z -> float -> list float -> Z ->
  list float.

Hypothesis cblas_sgemv_in_place :
  forall order trans M N alpha a lda x incX beta y incY,
    length (cblas_sgemv order trans M N alpha a lda x incX beta y incY)
    = length y.

Local Abbreviation HALF :=
  (MatVecMulImplBody_OMP_HALF half float half_to_float float_to_half
     float_of_int indeterminate cblas_sgemv).
Local Abbreviation HALF_float_lhs :=
  (MatVecMulImplBody_OMP_HALF_float_lhs half float half_to_float
     float_of_int indeterminate cblas_sgemv).
Local Abbreviation FLOAT :=
  (MatVecMulImplBody_OMP_FLOAT float float_of_int cblas_sgemv).
Local Abbreviation scratch := (allocate_buffer float indeterminate).
Local Abbreviation widen_v := (widen_vector half float half_to_float).
Local Abbreviation widen_m := (widen_matrix half float half_to_float).
Local Abbreviation narrow := (narrow_into half float float_to_half).
Local Abbreviation in_bounds := (matrix_in_bounds half).
Local Abbreviation dense := (dense_matrix half).

(** The single-precision result on the promoted operands. *)
Local Abbreviation promoted_result m n lhs rhs1 rhs2 rhs_stride vec_on_lhs :=
  (if vec_on_lhs
   then FLOAT m n lhs (widen_v rhs1 m) (widen_m rhs2 m n rhs_stride) n true
   else FLOAT m n lhs (widen_m rhs1 m n rhs_stride) (widen_v rhs2 n) n false).

Lemma promoted_result_length m n lhs rhs1 rhs2 rhs_stride (vec_on_lhs : bool) :
  length (promoted_result m n lhs rhs1 rhs2 rhs_stride vec_on_lhs)
  = length lhs.
Proof.
  unfold MatVecMulImplBody_OMP_FLOAT.
  destruct vec_on_lhs; apply cblas_sgemv_in_place.
Qed.

Lemma half_kernel_result m n lhs rhs1 rhs2 rhs_stride (vec_on_lhs : bool) :
  m * n < size_max ->
  (N.to_nat (if vec_on_lhs then m else n)
     <= length (if vec_on_lhs then rhs1 else rhs2))%nat ->
  in_bounds m n rhs_stride (if vec_on_lhs then rhs2 else rhs1) = true ->
  (N.to_nat (if vec_on_lhs then n else m) <= length lhs)%nat ->
  HALF m n lhs rhs1 rhs2 rhs_stride vec_on_lhs
  = Some (narrow lhs
            (promoted_result m n (scratch (if vec_on_lhs then n else m))
               rhs1 rhs2 rhs_stride vec_on_lhs)
            (if vec_on_lhs then n else m)).
Proof.
  intros Hmn Hvec Hmat Hlhs.
  unfold MatVecMulImplBody_OMP_HALF, MatVecMulImplBody_OMP_FLOAT.
  destruct vec_on_lhs.
  - rewrite half_vector_to_float_widens by exact Hvec. cbn [obind].
    rewrite half_matrix_to_float_widens by assumption. cbn [obind].
    apply float_vector_to_half_narrows; [exact Hlhs|].
    rewrite cblas_sgemv_in_place, allocate_buffer_length. lia.
  - rewrite half_matrix_to_float_widens by assumption. cbn [obind].
    rewrite half_vector_to_float_widens by exact Hvec. cbn [obind].
    apply float_vector_to_half_narrows; [exact Hlhs|].
    rewrite cblas_sgemv_in_place, allocate_buffer_length. lia.
Qed.

(** X14.  The two call operators of the half-precision kernel agree up to
    the final narrowing: on operands inside their buffers, the operator
    with a single-precision [lhs], run on a scratch buffer, returns the
    single-precision result un-narrowed, and the operator with a
    half-precision [lhs] returns that result narrowed into [lhs]. *)
Theorem half_kernel_operators_agree
    m n lhs rhs1 rhs2 rhs_stride (vec_on_lhs : bool) :
  m * n < size_max ->
  (N.to_nat (if vec_on_lhs then m else n)
     <= length (if vec_on_lhs then rhs1 else rhs2))%nat ->
  in_bounds m n rhs_stride (if vec_on_lhs then rhs2 else rhs1) = true ->
  (N.to_nat (if vec_on_lhs then n else m) <= length lhs)%nat ->
  exists r,
    HALF_float_lhs m n (scratch (if vec_on_lhs then n else m))
      rhs1 rhs2 rhs_stride vec_on_lhs = Some r /\
    length r = N.to_nat (if vec_on_lhs then n else m) /\
    HALF m n lhs rhs1 rhs2 rhs_stride vec_on_lhs
    = Some (narrow lhs r (if vec_on_lhs then n else m)).
Proof.
  intros Hmn Hvec Hmat Hlhs.
  exists (promoted_result m n (scratch (if vec_on_lhs then n else m))
            rhs1 rhs2 rhs_stride vec_on_lhs).
  split; [|split].
  - rewrite (half_kernel_float_lhs_promotes_executes half float half_to_float
               float_of_int indeterminate cblas_sgemv
               m n _ rhs1 rhs2 rhs_stride vec_on_lhs Hmn Hvec Hmat).
    reflexivity.
  - rewrite promoted_result_length. apply allocate_buffer_length.
  - now apply half_kernel_result.
Qed.

(** X15.  The half-precision kernel writes the first n (vector on the left)
    or m cells of [lhs] and nothing else: the buffer keeps its length and
    the cells behind them keep their contents. *)
Theorem half_kernel_frame m n lhs rhs1 rhs2 rhs_stride (vec_on_lhs : bool) :
  m * n < size_max ->
  (N.to_nat (if vec_on_lhs then m else n)
     <= length (if vec_on_lhs then rhs1 else rhs2))%nat ->
  in_bounds m n rhs_stride (if vec_on_lhs then rhs2 else rhs1) = true ->
  (N.to_nat (if vec_on_lhs then n else m) <= length lhs)%nat ->
  exists r,
    HALF m n lhs rhs1 rhs2 rhs_stride vec_on_lhs = Some r /\
    length r = length lhs /\
    skipn (N.to_nat (if vec_on_lhs then n else m)) r
    = skipn (N.to_nat (if vec_on_lhs then n else m)) lhs.
Proof.
  intros Hmn Hvec Hmat Hlhs.
  eexists. split; [now apply half_kernel_result|].
  set (k := if vec_on_lhs then n else m) in *.
  set (res := promoted_result m n (scratch k) rhs1 rhs2 rhs_stride vec_on_lhs).
  assert (Hres : length res = N.to_nat k).
  { subst res. rewrite promoted_result_length. apply allocate_buffer_length. }
  assert (Hpre : length (map float_to_half (firstn (N.to_nat k) res))
                 = N.to_nat k).
  { rewrite length_map, length_firstn. lia. }
  unfold narrow_into. split.
  - rewrite length_app, Hpre, length_skipn. lia.
  - rewrite skipn_app, Hpre, Nat.sub_diag, skipn_all2 by lia. reflexivity.
Qed.

(** *** The row stride *)

Lemma matrix_rows_in_bounds a m n pitch :
  in_bounds m n pitch a = true ->
  forall j, (0 <= j < 0 + N.to_nat m)%nat ->
    length (matrix_row half a (N.to_nat n) (N.to_nat pitch) j) = N.to_nat n.
Proof.
  intros Hb j Hj. unfold matrix_in_bounds in Hb.
  destruct (N.eqb_spec m 0); [lia|].
  destruct (N.eqb_spec n 0) as [->|Hn].
  - unfold matrix_row. reflexivity.
  - cbn [orb] in Hb. apply N.leb_le in Hb.
    apply matrix_row_length. nia.
Qed.

Lemma dense_matrix_length a m n pitch :
  in_bounds m n pitch a = true ->
  length (dense a m n pitch) = (N.to_nat m * N.to_nat n)%nat.
Proof.
  intros Hb. unfold dense_matrix.
  apply flat_map_rows_length. now apply matrix_rows_in_bounds.
Qed.

Lemma dense_matrix_in_bounds a m n pitch :
  in_bounds m n pitch a = true ->
  in_bounds m n n (dense a m n pitch) = true.
Proof.
  intros Hb. unfold matrix_in_bounds at 1.
  rewrite (dense_matrix_length _ _ _ _ Hb).
  destruct (N.eqb_spec m 0); [reflexivity|].
  destruct (N.eqb_spec n 0); [reflexivity|].
  cbn [orb]. apply N.leb_le. nia.
Qed.

Lemma flat_map_ext_seq {X} (f g : nat -> list X) m : forall s,
  (forall j, (s <= j < s + m)%nat -> f j = g j) ->
  flat_map f (seq s m) = flat_map g (seq s m).
Proof.
  induction m as [|m IH]; intros s H; [reflexivity|].
  cbn [seq flat_map]. rewrite H, IH by (try (intros; apply H); lia).
  reflexivity.
Qed.

(** Widening the dense copy of a matrix is widening the matrix. *)
Lemma widen_matrix_dense a m n pitch :
  in_bounds m n pitch a = true ->
  widen_m (dense a m n pitch) m n n = widen_m a m n pitch.
Proof.
  intros Hb. unfold widen_matrix. apply flat_map_ext_seq. intros j Hj.
  unfold widen_row. f_equal. unfold matrix_row at 1, dense_matrix.
  rewrite (flat_map_rows_nth _ (N.to_nat n) (N.to_nat m) 0 j).
  - reflexivity.
  - now apply matrix_rows_in_bounds.
  - lia.
Qed.

(** X16.  The half-precision kernel does not depend on the row stride of
    its matrix operand: it returns what it returns on the dense copy of the
    matrix, whose rows are n cells apart, so the cells between the rows
    never reach the result. *)
Theorem half_kernel_stride_irrelevant
    m n lhs rhs1 rhs2 rhs_stride (vec_on_lhs : bool) :
  m * n < size_max ->
  (N.to_nat (if vec_on_lhs then m else n)
     <= length (if vec_on_lhs then rhs1 else rhs2))%nat ->
  in_bounds m n rhs_stride (if vec_on_lhs then rhs2 else rhs1) = true ->
  (N.to_nat (if vec_on_lhs then n else m) <= length lhs)%nat ->
  HALF m n lhs rhs1 rhs2 rhs_stride vec_on_lhs
  = if vec_on_lhs
    then HALF m n lhs rhs1 (dense rhs2 m n rhs_stride) n true
    else HALF m n lhs (dense rhs1 m n rhs_stride) rhs2 n false.
Proof.
  intros Hmn Hvec Hmat Hlhs.
  rewrite half_kernel_result by assumption.
  destruct vec_on_lhs.
  - rewrite (half_kernel_result m n lhs rhs1 (dense rhs2 m n rhs_stride) n true)
      by (try assumption; now apply dense_matrix_in_bounds).
    now rewrite widen_matrix_dense.
  - rewrite (half_kernel_result m n lhs (dense rhs1 m n rhs_stride) rhs2 n false)
      by (try assumption; now apply dense_matrix_in_bounds).
    now rewrite widen_matrix_dense.
Qed.

End MatVecMulFurther.

Lemma half_kernel_operators_agree_witness :
  exists r,
    legate_numpy.MatVecMulImplBody_OMP_HALF_float_lhs Z Z (fun h => h)
      (fun z => z) 77%Z legate_numpy.ref_sgemv
      2 3 [77; 77]%Z [1; 2; 3; 9; 4; 5; 6; 9]%Z [1; 1; 2]%Z 4 false = Some r /\
    length r = 2%nat /\
    legate_numpy.MatVecMulImplBody_OMP_HALF Z Z (fun h => h)
      (fun f => Z.min f 20) (fun z => z) 77%Z legate_numpy.ref_sgemv
      2 3 [0; 0; 0; 0]%Z [1; 2; 3; 9; 4; 5; 6; 9]%Z [1; 1; 2]%Z 4 false
    = Some (legate_numpy.narrow_into Z Z (fun f => Z.min f 20)
              [0; 0; 0; 0]%Z r 2).
Proof.
  apply (half_kernel_operators_agree Z Z (fun h => h) (fun f => Z.min f 20)
           (fun z => z) 77%Z legate_numpy.ref_sgemv ref_sgemv_in_place
           2 3 [0; 0; 0; 0]%Z [1; 2; 3; 9; 4; 5; 6; 9]%Z [1; 1; 2]%Z 4 false).
  - reflexivity.
  - cbn. lia.
  - reflexivity.
  - cbn. lia.
Defined.

Lemma half_kernel_frame_witness :
  exists r,
    legate_numpy.MatVecMulImplBody_OMP_HALF Z Z (fun h => h)
      (fun f => Z.min f 20) (fun z => z) 77%Z legate_numpy.ref_sgemv
      2 3 [0; 0; 0; 8; 8]%Z [1; 2]%Z [1; 2; 3; 9; 4; 5; 6]%Z 4 true = Some r /\
    length r = 5%nat /\ skipn 3 r = [8; 8]%Z.
Proof.
  apply (half_kernel_frame Z Z (fun h => h) (fun f => Z.min f 20)
           (fun z => z) 77%Z legate_numpy.ref_sgemv ref_sgemv_in_place
           2 3 [0; 0; 0; 8; 8]%Z [1; 2]%Z [1; 2; 3; 9; 4; 5; 6]%Z 4 true).
  - reflexivity.
  - cbn. lia.
  - reflexivity.
  - cbn. lia.
Defined.

Lemma half_kernel_stride_irrelevant_witness :
  legate_numpy.MatVecMulImplBody_OMP_HALF Z Z (fun h => h)
    (fun f => Z.min f 20) (fun z => z) 77%Z legate_numpy.ref_sgemv
    2 3 [0; 0; 0]%Z [1; 2]%Z [1; 2; 3; 9; 4; 5; 6]%Z 4 true
  = legate_numpy.MatVecMulImplBody_OMP_HALF Z Z (fun h => h)
      (fun f => Z.min f 20) (fun z => z) 77%Z legate_numpy.ref_sgemv
      2 3 [0; 0; 0]%Z [1; 2]%Z [1; 2; 3; 4; 5; 6]%Z 3 true.
Proof.
  apply (half_kernel_stride_irrelevant Z Z (fun h => h) (fun f => Z.min f 20)
           (fun z => z) 77%Z legate_numpy.ref_sgemv ref_sgemv_in_place
           2 3 [0; 0; 0]%Z [1; 2]%Z [1; 2; 3; 9; 4; 5; 6]%Z 4 true).
  - reflexivity.
  - cbn. lia.
  - reflexivity.
  - cbn. lia.
Defined.
